(** * aiowiki: the edit throttle and token flow of [HTTPClient]

    A shallow embedding of [aiowiki/http.py] ([HTTPClient.get_token],
    [HTTPClient.modify_page], [edit_page], [move_page]) and of the two callers
    in [aiowiki/page.py] ([Page.edit], [Page.move]).

    The coroutines are written as programs over the effects they perform
    (the [asyncio.Lock], the event-loop clock, [asyncio.sleep], the aiohttp
    session, the attributes of [self], item assignment on the caller's
    dict).  A sequential interpreter [run] executes one coroutine to
    completion against an environment [env]; a step relation [step]
    interleaves several coroutines on one shared client. *)

From Stdlib Require Import ZArith String Ascii.
From Stdlib Require Import Floats.SpecFloat.
From stdpp Require Import gmap strings list fin_maps pretty.

Set Warnings "-register-all".

Open Scope string_scope.
Open Scope list_scope.
Open Scope Z_scope.

(** ** Python values *)

(** What [r.json()] can produce, and what a request dict can hold.  A Python
    [dict] with [str] keys is a finite map. *)
Inductive pyobj : Type :=
| PNone
| PBool (b : bool)
| PInt (n : Z)
| PFloat (f : spec_float)
| PStr (s : string)
| PList (l : list pyobj)
| PDict (d : gmap string pyobj).

(** Modelled from the spec: the exception classes of [aiowiki/exceptions.py]
    ([from .exceptions import *]) are not among the sources; the spec gives
    [TokenGetError] and [EditError], each carrying the server-supplied info.
    [KeyError], [TypeError] and [AttributeError] are the Python built-ins the
    subscripts and [data.get] can raise; [ClientError] stands for whatever
    the HTTP layer raises (connection error, body that is not JSON). *)
Inductive exn : Type :=
| KeyError (k : string)
| TypeError
| AttributeError
| ClientError
| TokenGetError (info : pyobj)
| EditError (info : pyobj).

(** [bool(v)]: Python truth value testing. *)
Definition truthy (v : pyobj) : bool :=
  match v with
  | PNone => false
  | PBool b => b
  | PInt n => negb (n =? 0)
  | PFloat (S754_zero _) => false
  | PFloat _ => true
  | PStr s => negb (Nat.eqb (String.length s) 0)
  | PList l => negb (Nat.eqb (length l) 0)
  | PDict d => negb (Nat.eqb (size d) 0)
  end.

(** [v[k]] for a [str] key: only a dict can be subscripted by a string. *)
Definition getitem (v : pyobj) (k : string) : exn + pyobj :=
  match v with
  | PDict d =>
      match d !! k with
      | Some x => inr x
      | None => inl (KeyError k)
      end
  | _ => inl TypeError
  end.

(** [v.get(k)]: only a dict has the method. *)
Definition dict_get (v : pyobj) (k : string) : exn + pyobj :=
  match v with
  | PDict d => inr (default PNone (d !! k))
  | _ => inl AttributeError
  end.

(** ** Effects *)

(** A dict object is referred to by its identity, so that the caller and
    the callee see the same object. *)
Definition ref := nat.

Inductive event : Type -> Type :=
| LockAcquire : event unit                       (* lock_edit.__aenter__ *)
| LockRelease : event unit                       (* lock_edit.__aexit__ *)
| LoopTime : event Z                             (* asyncio.get_event_loop().time() *)
| Sleep (d : Z) : event unit                     (* await asyncio.sleep(d) *)
| Print (s : string) : event unit
| GetUrl : event string                          (* self.url *)
| GetLoggedIn : event bool                       (* self.logged_in *)
| GetLastEdit : event Z                          (* self.last_edit *)
| SetLastEdit (t : Z) : event unit               (* self.last_edit = t *)
| SessionGet (u : string) : event (exn + pyobj)  (* session.get(u), r.json() *)
| SessionPost (u : string) (data : ref) : event (exn + pyobj)
| DictNew (d : gmap string pyobj) : event ref    (* a dict display *)
| DictSetItem (r : ref) (k : string) (v : pyobj) : event (exn + unit).

(** A coroutine: it returns, raises, or performs an effect and goes on with
    the answer. *)
Inductive prog (A : Type) : Type :=
| Ret (a : A)
| Raise (e : exn)
| Vis {X : Type} (ev : event X) (k : X -> prog A).

Arguments Ret {A} a.
Arguments Raise {A} e.
Arguments Vis {A X} ev k.

Fixpoint bind {A B : Type} (p : prog A) (f : A -> prog B) : prog B :=
  match p with
  | Ret a => f a
  | Raise e => Raise e
  | Vis ev k => Vis ev (fun x => bind (k x) f)
  end.

Declare Scope prog_scope.
Delimit Scope prog_scope with prog.
Bind Scope prog_scope with prog.

Notation "x <- p ;; q" := (bind p (fun x => q))
  (at level 100, p at next level, right associativity) : prog_scope.
Notation "p ;; q" := (bind p (fun _ => q))
  (at level 100, right associativity) : prog_scope.

Open Scope prog_scope.

Definition trigger {X : Type} (ev : event X) : prog X := Vis ev Ret.

Definition lift {A : Type} (r : exn + A) : prog A :=
  match r with
  | inl e => Raise e
  | inr a => Ret a
  end.

(** [try: p  except <handles>: h] *)
Fixpoint try_except {A : Type} (p : prog A) (handles : exn -> bool) (h : prog A)
  : prog A :=
  match p with
  | Ret a => Ret a
  | Raise e => if handles e then h else Raise e
  | Vis ev k => Vis ev (fun x => try_except (k x) handles h)
  end.

(** [try: p  finally: fin] *)
Fixpoint finally {A : Type} (p : prog A) (fin : prog unit) : prog A :=
  match p with
  | Ret a => (fin ;; Ret a)
  | Raise e => (fin ;; Raise e)
  | Vis ev k => Vis ev (fun x => finally (k x) fin)
  end.

(** [async with self.lock_edit: body] *)
Definition async_with_lock_edit {A : Type} (body : prog A) : prog A :=
  trigger LockAcquire ;; finally body (trigger LockRelease).

Definition is_KeyError (e : exn) : bool :=
  match e with
  | KeyError _ => true
  | _ => false
  end.

Definition subscript (v : pyobj) (k : string) : prog pyobj := lift (getitem v k).
Definition session_get (u : string) : prog pyobj := r <- trigger (SessionGet u) ;; lift r.
Definition session_post (u : string) (data : ref) : prog pyobj :=
  r <- trigger (SessionPost u data) ;; lift r.
Definition setitem (r : ref) (k : string) (v : pyobj) : prog unit :=
  x <- trigger (DictSetItem r k v) ;; lift x.

(** ** [aiowiki/http.py] *)

Definition THROTTLE : Z := 10.

(** The literal ["+\\"]: a plus sign and one backslash. *)
Definition anonymous_token : string := String "+" (String "092" EmptyString).

Definition token_url (url type : string) : string :=
  url +:+ "?action=query&meta=tokens&type=" +:+ type +:+ "&format=json".

Definition get_token (type : string) : prog pyobj :=
  self_url <- trigger GetUrl ;;
  data <- session_get (token_url self_url type) ;;
  try_except
    (query <- subscript data "query" ;;
     tokens <- subscript query "tokens" ;;
     subscript tokens (type +:+ "token"))
    is_KeyError
    (error <- subscript data "error" ;;
     info <- subscript error "info" ;;
     Raise (TokenGetError info)).

(** The f-string of the [print] (the delay is a float in the source). *)
Definition waiting_message (delay : Z) (action : string) : string :=
  "Waiting for " +:+ pretty delay +:+ " seconds before " +:+ action +:+ "-ing".

Definition modify_page (action : string) (json : ref) : prog pyobj :=
  async_with_lock_edit
    (now <- trigger LoopTime ;;
     last <- trigger GetLastEdit ;;
     let time := now - last in
     (if time <? THROTTLE
      then trigger (Print (waiting_message (THROTTLE - time) action)) ;;
           trigger (Sleep (THROTTLE - time))
      else Ret tt) ;;
     stamp <- trigger LoopTime ;;
     trigger (SetLastEdit stamp) ;;
     logged_in <- trigger GetLoggedIn ;;
     token <- (if logged_in : bool then get_token "csrf"
               else Ret (PStr anonymous_token)) ;;
     setitem json "action" (PStr action) ;;
     setitem json "format" (PStr "json") ;;
     setitem json "token" token ;;
     self_url <- trigger GetUrl ;;
     data <- session_post self_url json ;;
     error <- lift (dict_get data "error") ;;
     if truthy error
     then (error <- subscript data "error" ;;
           info <- subscript error "info" ;;
           Raise (EditError info))
     else Ret (PBool true)).

Definition edit_page (json : ref) : prog pyobj :=
  modify_page "edit" json ;; Ret PNone.

Definition move_page (json : ref) : prog pyobj :=
  modify_page "move" json ;; Ret PNone.

(** ** [aiowiki/page.py] *)

Definition Page_edit (title content summary : string) : prog pyobj :=
  json <- trigger (DictNew (<["summary" := PStr summary]>
                            (<["text" := PStr content]>
                             (<["title" := PStr title]> ∅)))) ;;
  edit_page json ;;
  Ret (PBool true).

Definition Page_move (title target reason : string) (redirect : bool) : prog pyobj :=
  json <- trigger (DictNew (<["movetalk" := PStr ""]>
                            (<["reason" := PStr reason]>
                             (<["to" := PStr target]>
                              (<["from" := PStr title]> ∅))))) ;;
  (if negb redirect then setitem json "noredirect" (PStr "") else Ret tt) ;;
  move_page json ;;
  Ret (PBool true).

(** ** The client, the world around it and the sequential interpreter *)

(** The attributes of an [HTTPClient] ([session] is the environment). *)
Record HTTPClient : Type := mkClient {
  url : string;
  logged_in : bool;
  lock_edit : bool;        (* asyncio.Lock.locked() *)
  last_edit : Z
}.

(** [HTTPClient.__init__] *)
Definition HTTPClient_init (u : string) (logged : bool) : HTTPClient :=
  {| url := u; logged_in := logged; lock_edit := false; last_edit := 0 |}.

(** What the program cannot control: how much time passes while the [n]-th
    effect is in flight, and what the server answers ([None]: no parsed
    JSON body came back).  The event-loop clock is a float in the source;
    here time is counted exactly, in whole units, and never runs
    backwards. *)
Record env : Type := mkEnv {
  elapse : nat -> N;
  get_response : nat -> string -> option pyobj;
  post_response : nat -> string -> gmap string pyobj -> option pyobj
}.

(** What the coroutine gets from the session: the parsed body, or the
    exception of the HTTP layer. *)
Definition from_session (resp : option pyobj) : exn + pyobj :=
  match resp with
  | Some data => inr data
  | None => inl ClientError
  end.

Record world : Type := mkWorld {
  self : HTTPClient;
  heap : gmap ref (gmap string pyobj);
  clock : Z;
  tick : nat                (* number of effects performed so far *)
}.

(** The observable actions of a run, in the order they happen. *)
Inductive action : Type :=
| ALock
| AUnlock
| ATime (t : Z)
| ASleep (d : Z)
| APrint (s : string)
| AStamp (t : Z)
| AGet (u : string) (resp : option pyobj)
| APost (u : string) (data : gmap string pyobj) (resp : option pyobj)
| ANew (r : ref)
| ASetItem (r : ref) (k : string) (v : pyobj).

Definition with_lock_edit (b : bool) (c : HTTPClient) : HTTPClient :=
  {| url := url c; logged_in := logged_in c; lock_edit := b; last_edit := last_edit c |}.

Definition with_last_edit (t : Z) (c : HTTPClient) : HTTPClient :=
  {| url := url c; logged_in := logged_in c; lock_edit := lock_edit c; last_edit := t |}.

(** One effect is over: [d] units of sleep plus the latency of the effect
    have passed ([asyncio.sleep(d)] is over no earlier than [d] units
    later). *)
Definition pass (E : env) (d : Z) (c : HTTPClient) (h : gmap ref (gmap string pyobj))
    (w : world) : world :=
  {| self := c; heap := h;
     clock := clock w + d + Z.of_N (elapse E (tick w));
     tick := S (tick w) |}.

(** An [acquire] on a locked lock waits. *)
Definition blocked {X : Type} (ev : event X) (w : world) : bool :=
  match ev with
  | LockAcquire => lock_edit (self w)
  | _ => false
  end.

(** The answer to an effect, the world after it, and what was observed.
    [asyncio.sleep] of a delay that is not positive only yields; item
    assignment needs a dict behind the reference. *)
Definition perform {X : Type} (E : env) (ev : event X) (w : world)
  : X * world * list action :=
  let c := self w in
  let h := heap w in
  match ev in event X return X * world * list action with
  | LockAcquire => (tt, pass E 0 (with_lock_edit true c) h w, [ALock])
  | LockRelease => (tt, pass E 0 (with_lock_edit false c) h w, [AUnlock])
  | LoopTime => (clock w, pass E 0 c h w, [ATime (clock w)])
  | Sleep d => (tt, pass E (Z.max 0 d) c h w, [ASleep d])
  | Print s => (tt, pass E 0 c h w, [APrint s])
  | GetUrl => (url c, pass E 0 c h w, [])
  | GetLoggedIn => (logged_in c, pass E 0 c h w, [])
  | GetLastEdit => (last_edit c, pass E 0 c h w, [])
  | SetLastEdit t => (tt, pass E 0 (with_last_edit t c) h w, [AStamp t])
  | SessionGet u =>
      let resp := get_response E (tick w) u in
      (from_session resp, pass E 0 c h w, [AGet u resp])
  | SessionPost u r =>
      match h !! r with
      | Some d =>
          let resp := post_response E (tick w) u d in
          (from_session resp, pass E 0 c h w, [APost u d resp])
      | None => (inl TypeError, pass E 0 c h w, [])
      end
  | DictNew d =>
      let r := fresh (dom h) in
      (r, pass E 0 c (<[r := d]> h) w, [ANew r])
  | DictSetItem r k v =>
      match h !! r with
      | Some d => (inr tt, pass E 0 c (<[r := <[k := v]> d]> h) w, [ASetItem r k v])
      | None => (inl TypeError, pass E 0 c h w, [])
      end
  end.

Inductive outcome (A : Type) : Type :=
| Returned (a : A)
| Raised (e : exn)
| Blocked.                 (* waiting for a lock nobody will release *)

Arguments Returned {A} a.
Arguments Raised {A} e.
Arguments Blocked {A}.

Record result (A : Type) : Type := mkResult {
  out : outcome A;
  final : world;
  actions : list action
}.

Arguments mkResult {A} out final actions.
Arguments out {A} r.
Arguments final {A} r.
Arguments actions {A} r.

(** One more action in front of a run. *)
Definition after {A : Type} (l : list action) (r : result A) : result A :=
  mkResult (out r) (final r) (l ++ actions r).

(** A single coroutine run to its end, alone on the event loop. *)
Fixpoint run {A : Type} (E : env) (p : prog A) (w : world) : result A :=
  match p with
  | Ret a => mkResult (Returned a) w []
  | Raise e => mkResult (Raised e) w []
  | Vis ev k =>
      if blocked ev w then mkResult Blocked w []
      else let '(x, w', l) := perform E ev w in after l (run E (k x) w')
  end.

(** ** Several coroutines on one client *)

(** The coroutines in flight (what is left of each), the world they share
    and who did what so far. *)
Record config : Type := mkConfig {
  tasks : list (prog pyobj);
  shared : world;
  history : list (nat * action)
}.

(** The event loop resumes some coroutine that is not waiting for the lock
    and lets it perform its next effect.  Coroutines may be interleaved
    between any two effects (asyncio switches only at an [await]), and an
    [acquire] goes through whenever the lock is free, whoever asks. *)
Inductive step (E : env) : config -> config -> Prop :=
| step_task (i : nat) {X : Type} (ev : event X) (k : X -> prog pyobj)
    (ts : list (prog pyobj)) (w w' : world) (hist : list (nat * action))
    (x : X) (l : list action) :
    ts !! i = Some (Vis ev k) ->
    blocked ev w = false ->
    perform E ev w = (x, w', l) ->
    step E (mkConfig ts w hist) (mkConfig (<[i := k x]> ts) w' (hist ++ map (pair i) l)).

(** The calls that go through the throttle. *)
Inductive call : Type :=
| CallEdit (json : ref)
| CallMove (json : ref)
| CallModify (action : string) (json : ref).

Definition start (c : call) : prog pyobj :=
  match c with
  | CallEdit json => edit_page json
  | CallMove json => move_page json
  | CallModify action json => modify_page action json
  end.

Definition initial (calls : list call) (w : world) : config :=
  mkConfig (map start calls) w [].

(** Coroutine [i] is between its [ALock] and its [AUnlock]. *)
Definition holds_after (i : nat) (held : bool) (e : nat * action) : bool :=
  if Nat.eqb (fst e) i then
    match snd e with
    | ALock => true
    | AUnlock => false
    | _ => held
    end
  else held.

Definition in_critical_section (i : nat) (hist : list (nat * action)) : bool :=
  fold_left (holds_after i) hist false.

(** The scheduler made explicit: resume coroutine [i] for one effect (nothing
    happens if it is finished or waiting for the lock), and do so along a
    list of choices. *)
Definition fire (E : env) (i : nat) (c : config) : config :=
  match tasks c !! i with
  | Some (Vis ev k) =>
      if blocked ev (shared c) then c
      else let '(x, w', l) := perform E ev (shared c) in
           mkConfig (<[i := k x]> (tasks c)) w' (history c ++ map (pair i) l)
  | _ => c
  end.

Definition schedule (E : env) (order : list nat) (c : config) : config :=
  fold_left (fun c i => fire E i c) order c.

(** ** Vocabulary of the statements *)

(** What an effect does to the lock: [Some true] takes it, [Some false]
    gives it back. *)
Definition lock_op {X : Type} (ev : event X) : option bool :=
  match ev with
  | LockAcquire => Some true
  | LockRelease => Some false
  | _ => None
  end.

Definition lock_free (X : Type) (ev : event X) : bool :=
  match lock_op ev with
  | None => true
  | Some _ => false
  end.

(** Lock discipline of what is left of a coroutine, [held] telling whether
    it has the lock now: it takes the lock only when it does not have it,
    does everything else, the release included, only while it has it, and
    never ends with the lock. *)
Fixpoint guarded {A : Type} (held : bool) (p : prog A) : Prop :=
  match p with
  | Ret _ => held = false
  | Raise _ => held = false
  | Vis ev k =>
      match lock_op ev with
      | Some true => held = false /\ forall x, guarded true (k x)
      | Some false => held = true /\ forall x, guarded false (k x)
      | None => held = true /\ forall x, guarded true (k x)
      end
  end.

(** Every effect a coroutine may perform, on every path, is one of [P]. *)
Fixpoint all_events {A : Type} (P : forall X, event X -> bool) (p : prog A) : Prop :=
  match p with
  | Ret _ => True
  | Raise _ => True
  | Vis ev k => P _ ev = true /\ forall x, all_events P (k x)
  end.

(** The effects that touch neither the lock, nor the clock, nor the stamp. *)
Definition quiet (X : Type) (ev : event X) : bool :=
  match ev with
  | LockAcquire | LockRelease | LoopTime | Sleep _ | Print _ | SetLastEdit _ => false
  | _ => true
  end.

(** A value found by following keys down from the top of a response. *)
Fixpoint lookup_path (v : pyobj) (path : list string) : exn + pyobj :=
  match path with
  | [] => inr v
  | k :: rest =>
      match getitem v k with
      | inl e => inl e
      | inr x => lookup_path x rest
      end
  end.

Definition token_path (type : string) : list string :=
  ["query"; "tokens"; type +:+ "token"].

Definition is_injection (a : action) : bool :=
  match a with
  | ASetItem _ _ _ => true
  | APost _ _ _ => true
  | _ => false
  end.

Definition is_token_request (a : action) : bool :=
  match a with
  | AGet _ _ => true
  | _ => false
  end.

(** What the pacing wait looks like from outside, [elapsed] units after the
    last stamp. *)
Definition pacing_wait (name : string) (elapsed : Z) : list action :=
  if elapsed <? THROTTLE
  then [APrint (waiting_message (THROTTLE - elapsed) name); ASleep (THROTTLE - elapsed)]
  else [].

Definition is_pacing (a : action) : bool :=
  match a with
  | ALock | ATime _ | APrint _ | ASleep _ | AStamp _ => true
  | _ => false
  end.

(** The three control fields. *)
Definition control_fields : gset string := {["action"; "format"; "token"]}.

Definition inject (action : string) (token : pyobj) (d : gmap string pyobj)
  : gmap string pyobj :=
  <["token" := token]> (<["format" := PStr "json"]> (<["action" := PStr action]> d)).

(** Whenever a coroutine did something, nobody else was in a critical
    section, and, unless it was taking the lock, it was in its own. *)
Definition alone (hist : list (nat * action)) : Prop :=
  forall pre i a post,
    hist = pre ++ (i, a) :: post ->
    (forall j, j <> i -> in_critical_section j pre = false) /\
    (a <> ALock -> in_critical_section i pre = true).

(** The invariant of the interleaving: each coroutine keeps the lock
    discipline, with "has the lock" read off the history; when the lock is
    free nobody is in a critical section; at most one coroutine is in one;
    and [alone] holds of the history. *)
Definition invariant (c : config) : Prop :=
  (forall i p, tasks c !! i = Some p ->
               guarded (in_critical_section i (history c)) p) /\
  (lock_edit (self (shared c)) = false ->
   forall i, in_critical_section i (history c) = false) /\
  (forall i j, in_critical_section i (history c) = true ->
               in_critical_section j (history c) = true -> i = j) /\
  alone (history c).

(** ** Sample data for the examples *)

Definition token_response (tok : string) : pyobj :=
  PDict {["query" := PDict {["tokens" := PDict {["csrftoken" := PStr tok]}]}]}.

Definition error_response (info : string) : pyobj :=
  PDict {["error" := PDict {["info" := PStr info]}]}.

(** A server that takes [lat] units per effect, answers every GET with
    [get] and every POST with [post]. *)
Definition sample_env (lat : N) (get post : pyobj) : env :=
  {| elapse := fun _ => lat;
     get_response := fun _ _ => Some get;
     post_response := fun _ _ _ => Some post |}.

(** An instantaneous server on a busy event loop: the [n0]-th effect is
    over [lat] units late. *)
Definition sample_env_late (n0 : nat) (lat : N) (get post : pyobj) : env :=
  {| elapse := fun n => if (n =? n0)%nat then lat else 0%N;
     get_response := fun _ _ => Some get;
     post_response := fun _ _ _ => Some post |}.

Definition sample_world (logged : bool) (now : Z) : world :=
  {| self := HTTPClient_init "https://wiki/api.php" logged;
     heap := {[ 0%nat := {["title" := PStr "T"]} ]};
     clock := now;
     tick := 0 |}.

(** ** Vocabulary of the further statements *)

Definition is_lock_action (a : action) : bool :=
  match a with
  | ALock | AUnlock => true
  | _ => false
  end.

(** The dicts that [Page.edit] and [Page.move] build. *)
Definition edit_fields (title content summary : string) : gmap string pyobj :=
  <["summary" := PStr summary]> (<["text" := PStr content]> (<["title" := PStr title]> ∅)).

Definition move_fields (title target reason : string) (redirect : bool)
  : gmap string pyobj :=
  let base := <["movetalk" := PStr ""]>
              (<["reason" := PStr reason]>
               (<["to" := PStr target]> (<["from" := PStr title]> ∅))) in
  if redirect then base else <["noredirect" := PStr ""]> base.

(** ** Calls one after the other *)

(** What is left of a coroutine that has ended with [o]. *)
Definition ended {A : Type} (o : outcome A) : option (prog A) :=
  match o with
  | Returned a => Some (Ret a)
  | Raised e => Some (Raise e)
  | Blocked => None
  end.

(** Call number [i] is made and runs to its end. *)
Definition serial_step (E : env) (calls : list call)
    (s : world * list (nat * action) * list (nat * outcome pyobj)) (i : nat)
  : world * list (nat * action) * list (nat * outcome pyobj) :=
  let '(w, hist, outs) := s in
  match calls !! i with
  | Some c =>
      let r := run E (start c) w in
      (final r, hist ++ map (pair i) (actions r), outs ++ [(i, out r)])
  | None => s
  end.

(** The calls of [order] made one after the other, each when the one before
    is over: the world in the end, who did what, and how each call ended. *)
Definition serial (E : env) (calls : list call) (order : list nat) (w : world)
  : world * list (nat * action) * list (nat * outcome pyobj) :=
  fold_left (serial_step E calls) order (w, [], []).

(** The stamps of a history, in the order they were made. *)
Definition stamp_of (e : nat * action) : option Z :=
  match snd e with
  | AStamp t => Some t
  | _ => None
  end.

Definition stamps (hist : list (nat * action)) : list Z := omap stamp_of hist.

(** Each stamp is at least [THROTTLE] after the one before. *)
Definition paced (ts : list Z) : Prop :=
  forall k t t', ts !! k = Some t -> ts !! S k = Some t' -> t + THROTTLE <= t'.

(** What is left of a call inside its critical section: no [acquire], and
    right after the [release] it is over. *)
Definition finished {A : Type} (p : prog A) : Prop :=
  match p with
  | Vis _ _ => False
  | _ => True
  end.

Fixpoint closing {A : Type} (p : prog A) : Prop :=
  match p with
  | Ret _ => False
  | Raise _ => False
  | Vis ev k =>
      match lock_op ev with
      | Some true => False
      | Some false => forall x, finished (k x)
      | None => forall x, closing (k x)
      end
  end.

(** A call that has not started: it begins by taking the lock. *)
Definition opening {A : Type} (p : prog A) : Prop :=
  match p with
  | Vis ev k => lock_op ev = Some true /\ forall x, closing (k x)
  | _ => False
  end.

(** Where coroutine [j], of which [p] is left, stands: over (with the
    outcome recorded for it), or the one in its critical section, or not
    started. *)
Definition task_state (calls : list call) (outs : list (nat * outcome pyobj))
    (holder : option (nat * prog pyobj)) (j : nat) (p : prog pyobj) : Prop :=
  (exists o, (j, o) ∈ outs /\ ended o = Some p) \/
  holder = Some (j, p) \/
  ((j ∉ outs.*1) /\ (forall q, holder <> Some (j, q)) /\
   exists c, calls !! j = Some c /\ p = start c).

(** The interleaving so far is the calls of [order] made one after the
    other, followed by the part of its run that the call now in its
    critical section (if any) has done. *)
Definition serialized (E : env) (calls : list call) (w : world) (c : config) : Prop :=
  exists (order : list nat) (holder : option (nat * prog pyobj))
         (w_s : world) (h_s : list (nat * action)) (outs : list (nat * outcome pyobj)),
    serial E calls order w = (w_s, h_s, outs) /\
    NoDup order /\
    outs.*1 = order /\
    lock_edit (self w_s) = false /\
    (forall j p, tasks c !! j = Some p -> task_state calls outs holder j p) /\
    match holder with
    | None => shared c = w_s /\ history c = h_s
    | Some (i, p) =>
        exists ci sect,
          (i ∉ order) /\ calls !! i = Some ci /\ tasks c !! i = Some p /\
          closing p /\ lock_edit (self (shared c)) = true /\
          history c = h_s ++ map (pair i) sect /\
          run E (start ci) w_s = after sect (run E p (shared c))
    end.

(** ** The other methods of [HTTPClient] *)

(** Modelled from the spec: the exception classes of [aiowiki/exceptions.py]
    are not among the sources, and the spec names only [TokenGetError] and
    [EditError]; the others are taken from the [raise] statements of
    [aiowiki/http.py], each carrying the argument it is raised with.
    [IndexError] and [KeyError] with an integer key are the Python built-ins
    that subscripting by a number can raise. *)
Inductive error : Type :=
| Builtin (e : exn)
| IndexError
| KeyErrorAt (i : nat)
| CreateAccountError (messagecode : pyobj)
| InvalidGroupError (warning : pyobj)
| UserRightsNotChangedError (msg : string)
| NoSuchUserError (info : pyobj)
| LoginFailure (message : pyobj)
| PageNotFound (msg : string).

(** The effects of these methods: those above, and the assignment
    [self.logged_in = b]. *)
Inductive effect : Type -> Type :=
| Base {X : Type} (ev : event X) : effect X
| SetLoggedIn (b : bool) : effect unit.

Inductive api (A : Type) : Type :=
| Give (a : A)
| Throw (e : error)
| Act {X : Type} (ef : effect X) (k : X -> api A).

Arguments Give {A} a.
Arguments Throw {A} e.
Arguments Act {A X} ef k.

Fixpoint bind_api {A B : Type} (p : api A) (f : A -> api B) : api B :=
  match p with
  | Give a => f a
  | Throw e => Throw e
  | Act ef k => Act ef (fun x => bind_api (k x) f)
  end.

Declare Scope api_scope.
Delimit Scope api_scope with api.
Bind Scope api_scope with api.

Notation "x <- p ;; q" := (bind_api p (fun x => q))
  (at level 100, p at next level, right associativity) : api_scope.
Notation "p ;; q" := (bind_api p (fun _ => q))
  (at level 100, right associativity) : api_scope.

(** A coroutine of the first kind, called from one of these. *)
Fixpoint up {A : Type} (p : prog A) : api A :=
  match p with
  | Ret a => Give a
  | Raise e => Throw (Builtin e)
  | Vis ev k => Act (Base ev) (fun x => up (k x))
  end.

Definition lift_api {A : Type} (r : error + A) : api A :=
  match r with
  | inl e => Throw e
  | inr a => Give a
  end.

Definition lift_py {A : Type} (r : exn + A) : api A :=
  match r with
  | inl e => Throw (Builtin e)
  | inr a => Give a
  end.

(** [try: p  except <handles>: h] *)
Fixpoint try_except_api {A : Type} (p : api A) (handles : error -> bool) (h : api A)
  : api A :=
  match p with
  | Give a => Give a
  | Throw e => if handles e then h else Throw e
  | Act ef k => Act ef (fun x => try_except_api (k x) handles h)
  end.

(** [except KeyError], whatever the key. *)
Definition is_KeyError_api (e : error) : bool :=
  match e with
  | Builtin (KeyError _) => true
  | KeyErrorAt _ => true
  | _ => false
  end.

(** [v == s] for a [str] [s]. *)
Definition py_eq_str (v : pyobj) (s : string) : bool :=
  match v with
  | PStr s' => String.eqb s' s
  | _ => false
  end.

(** [k in v.keys()] *)
Definition has_key (v : pyobj) (k : string) : exn + bool :=
  match v with
  | PDict d => inr (bool_decide (is_Some (d !! k)))
  | _ => inl AttributeError
  end.

(** [v[n]] for a number [n] that is not negative. *)
Definition getindex (v : pyobj) (n : nat) : error + pyobj :=
  match v with
  | PList l =>
      match l !! n with
      | Some x => inr x
      | None => inl IndexError
      end
  | PStr s =>
      match String.get n s with
      | Some c => inr (PStr (String c EmptyString))
      | None => inl IndexError
      end
  | PDict _ => inl (KeyErrorAt n)
  | _ => inl (Builtin TypeError)
  end.

(** Whether [html.unescape(v)] raises ([TypeError]): it tests ['&' in v] and
    hands [v] to a regular expression if so. *)
Definition unescape_raises (v : pyobj) : bool :=
  match v with
  | PStr _ => false
  | PList l => existsb (fun x => py_eq_str x "&") l
  | PDict d => bool_decide (is_Some (d !! "&"))
  | _ => true
  end.

(** [unescape(v)] as a statement: its value is dropped. *)
Definition unescape_dropped (v : pyobj) : api unit :=
  if unescape_raises v then Throw (Builtin TypeError) else Give tt.

(** [[p["title"] for p in l]], from left to right. *)
Fixpoint titles_of (l : list pyobj) : exn + list pyobj :=
  match l with
  | [] => inr []
  | p :: l' =>
      match getitem p "title" with
      | inl e => inl e
      | inr t =>
          match titles_of l' with
          | inl e => inl e
          | inr ts => inr (t :: ts)
          end
      end
  end.

(** The same for any [v]: a dict yields its keys and a [str] its characters,
    and neither can be subscripted by ["title"]. *)
Definition titles (v : pyobj) : exn + pyobj :=
  match v with
  | PList l =>
      match titles_of l with
      | inl e => inl e
      | inr ts => inr (PList ts)
      end
  | PDict d => if Nat.eqb (size d) 0 then inr (PList []) else inl TypeError
  | PStr s => if Nat.eqb (String.length s) 0 then inr (PList []) else inl TypeError
  | _ => inl TypeError
  end.

Definition sub (v : pyobj) (k : string) : api pyobj := lift_py (getitem v k).
Definition sub_at (v : pyobj) (n : nat) : api pyobj := lift_api (getindex v n).

Definition random_url (url num namespace : string) : string :=
  url +:+ "?action=query&list=random&rnlimit=" +:+ num +:+ "&rnnamespace="
      +:+ namespace +:+ "&format=json".

(** [num] and [namespace] are given as the f-string prints them. *)
Definition get_random_pages (num namespace : string) : api pyobj :=
  (self_url <- up (trigger GetUrl) ;;
   data <- up (session_get (random_url self_url num namespace)) ;;
   query <- sub data "query" ;;
   random <- sub query "random" ;;
   lift_py (titles random))%api.

Definition create_account (json : ref) : api pyobj :=
  (token <- up (get_token "createaccount") ;;
   up (setitem json "action" (PStr "createaccount")) ;;
   up (setitem json "format" (PStr "json")) ;;
   self_url <- up (trigger GetUrl) ;;
   up (setitem json "createreturnurl" (PStr self_url)) ;;
   up (setitem json "createtoken" token) ;;
   self_url <- up (trigger GetUrl) ;;
   json <- up (session_post self_url json) ;;
   createaccount <- sub json "createaccount" ;;
   status <- sub createaccount "status" ;;
   if py_eq_str status "FAIL"
   then (createaccount <- sub json "createaccount" ;;
         messagecode <- sub createaccount "messagecode" ;;
         Throw (CreateAccountError messagecode))
   else Give (PBool true))%api.

Definition rights_unchanged : string :=
  "User rights are the same after this action or current session is not allowed to change user rights".

Definition userrights (json : ref) : api pyobj :=
  (token <- up (get_token "userrights") ;;
   up (setitem json "action" (PStr "userrights")) ;;
   up (setitem json "format" (PStr "json")) ;;
   up (setitem json "token" token) ;;
   self_url <- up (trigger GetUrl) ;;
   json <- up (session_post self_url json) ;;
   warned <- lift_py (has_key json "warnings") ;;
   (if warned : bool
    then (warnings <- sub json "warnings" ;;
          warning <- sub warnings "userrights" ;;
          Throw (InvalidGroupError warning))
    else Give tt) ;;
   try_except_api
     (rights <- sub json "userrights" ;;
      added <- sub rights "added" ;;
      if negb (truthy added)
      then (rights <- sub json "userrights" ;;
            removed <- sub rights "removed" ;;
            if negb (truthy removed)
            then Throw (UserRightsNotChangedError rights_unchanged)
            else Give tt)
      else Give tt)
     is_KeyError_api
     (failed <- lift_py (has_key json "error") ;;
      if failed : bool
      then (error <- sub json "error" ;;
            code <- sub error "code" ;;
            if py_eq_str code "nosuchuser"
            then (error <- sub json "error" ;;
                  info <- sub error "info" ;;
                  Throw (NoSuchUserError info))
            else Give tt)
      else Give tt) ;;
   Give (PBool true))%api.

Definition login (data : ref) : api pyobj :=
  (token <- up (get_token "login") ;;
   up (setitem data "action" (PStr "clientlogin")) ;;
   up (setitem data "loginreturnurl" (PStr "https://example.com")) ;;
   up (setitem data "format" (PStr "json")) ;;
   up (setitem data "rememberMe" (PInt 1)) ;;
   up (setitem data "logintoken" token) ;;
   self_url <- up (trigger GetUrl) ;;
   json <- up (session_post self_url data) ;;
   clientlogin <- sub json "clientlogin" ;;
   status <- sub clientlogin "status" ;;
   (if py_eq_str status "FAIL"
    then (clientlogin <- sub json "clientlogin" ;;
          message <- sub clientlogin "message" ;;
          Throw (LoginFailure message))
    else Give tt) ;;
   Act (SetLoggedIn true) Give ;;
   Give (PBool true))%api.

Definition html_url (url page : string) : string :=
  url +:+ "?action=parse&page=" +:+ page +:+ "&format=json".

Definition get_html (page : string) : api pyobj :=
  (self_url <- up (trigger GetUrl) ;;
   data <- up (session_get (html_url self_url page)) ;;
   html <- try_except_api
             (parse <- sub data "parse" ;;
              text <- sub parse "text" ;;
              sub text "*")
             is_KeyError_api
             (Throw (PageNotFound "Unknown Page or error when getting html")) ;;
   unescape_dropped html ;;
   Give html)%api.

Definition markdown_url (url page : string) : string :=
  url +:+ "?action=query&titles=" +:+ page
      +:+ "&prop=revisions&rvprop=content&format=json&formatversion=2".

Definition get_markdown (page : string) : api pyobj :=
  (self_url <- up (trigger GetUrl) ;;
   data <- up (session_get (markdown_url self_url page)) ;;
   md <- try_except_api
           (query <- sub data "query" ;;
            pages <- sub query "pages" ;;
            first <- sub_at pages 0 ;;
            revisions <- sub first "revisions" ;;
            revision <- sub_at revisions 0 ;;
            sub revision "content")
           is_KeyError_api
           (Throw (PageNotFound "Unknown Page or error when getting markdown")) ;;
   unescape_dropped md ;;
   Give md)%api.

(** ** Running them *)

Definition with_logged_in (b : bool) (c : HTTPClient) : HTTPClient :=
  {| url := url c; logged_in := b; lock_edit := lock_edit c; last_edit := last_edit c |}.

Definition blocked_api {X : Type} (ef : effect X) (w : world) : bool :=
  match ef with
  | Base ev => blocked ev w
  | SetLoggedIn _ => false
  end.

Definition perform_api {X : Type} (E : env) (ef : effect X) (w : world)
  : X * world * list action :=
  match ef in effect X return X * world * list action with
  | Base ev => perform E ev w
  | SetLoggedIn b => (tt, pass E 0 (with_logged_in b (self w)) (heap w) w, [])
  end.

Inductive api_outcome (A : Type) : Type :=
| Done (a : A)
| Failed (e : error)
| Waiting.

Arguments Done {A} a.
Arguments Failed {A} e.
Arguments Waiting {A}.

Record api_result (A : Type) : Type := mkApiResult {
  api_out : api_outcome A;
  api_final : world;
  api_actions : list action
}.

Arguments mkApiResult {A} api_out api_final api_actions.
Arguments api_out {A} _.
Arguments api_final {A} _.
Arguments api_actions {A} _.

Definition api_after {A : Type} (l : list action) (r : api_result A) : api_result A :=
  mkApiResult (api_out r) (api_final r) (l ++ api_actions r).

Fixpoint run_api {A : Type} (E : env) (p : api A) (w : world) : api_result A :=
  match p with
  | Give a => mkApiResult (Done a) w []
  | Throw e => mkApiResult (Failed e) w []
  | Act ef k =>
      if blocked_api ef w then mkApiResult Waiting w []
      else let '(x, w', l) := perform_api E ef w in api_after l (run_api E (k x) w')
  end.

(** How a run of the first kind looks from here. *)
Definition raise_result {A : Type} (r : result A) : api_result A :=
  mkApiResult match out r with
              | Returned a => Done a
              | Raised e => Failed (Builtin e)
              | Blocked => Waiting
              end (final r) (actions r).

(** ** Vocabulary of the statements about them *)

(** The calls a user of the client can make here. *)
Inductive method_call : Type :=
| Login (data : ref)
| CreateAccount (json : ref)
| UserRights (json : ref)
| GetHtml (page : string)
| GetMarkdown (page : string)
| GetRandomPages (num namespace : string).

Definition invoke (c : method_call) : api pyobj :=
  match c with
  | Login data => login data
  | CreateAccount json => create_account json
  | UserRights json => userrights json
  | GetHtml page => get_html page
  | GetMarkdown page => get_markdown page
  | GetRandomPages num namespace => get_random_pages num namespace
  end.

(** Every effect of the first kind that [p] can perform satisfies [P]. *)
Fixpoint all_effects {A : Type} (P : forall X, event X -> bool) (p : api A) : Prop :=
  match p with
  | Give _ => True
  | Throw _ => True
  | Act ef k =>
      match ef with
      | Base ev => P _ ev = true
      | SetLoggedIn _ => True
      end /\ forall x, all_effects P (k x)
  end.

(** The fields [login] sets, on top of [d]. *)
Definition login_fields (token : pyobj) (d : gmap string pyobj) : gmap string pyobj :=
  <["logintoken" := token]>
    (<["rememberMe" := PInt 1]>
       (<["format" := PStr "json"]>
          (<["loginreturnurl" := PStr "https://example.com"]>
             (<["action" := PStr "clientlogin"]> d)))).

(** The fields [create_account] sets, on top of [d]. *)
Definition create_fields (url : string) (token : pyobj) (d : gmap string pyobj)
  : gmap string pyobj :=
  <["createtoken" := token]>
    (<["createreturnurl" := PStr url]>
       (<["format" := PStr "json"]>
          (<["action" := PStr "createaccount"]> d))).

(** What the server makes of a login: [status] and [message] of its answer. *)
Definition login_verdict (json : pyobj) : api_outcome pyobj :=
  match lookup_path json ["clientlogin"; "status"] with
  | inl e => Failed (Builtin e)
  | inr status =>
      if py_eq_str status "FAIL"
      then match lookup_path json ["clientlogin"; "message"] with
           | inl e => Failed (Builtin e)
           | inr message => Failed (LoginFailure message)
           end
      else Done (PBool true)
  end.

(** A subscript: a [str] key or a number. *)
Inductive key : Type :=
| Key (k : string)
| Index (n : nat).

(** A value found by following subscripts down from the top of a response. *)
Fixpoint lookup_keys (v : pyobj) (path : list key) : error + pyobj :=
  match path with
  | [] => inr v
  | Key k :: rest =>
      match getitem v k with
      | inl e => inl (Builtin e)
      | inr x => lookup_keys x rest
      end
  | Index n :: rest =>
      match getindex v n with
      | inl e => inl e
      | inr x => lookup_keys x rest
      end
  end.

(** Where [get_markdown] looks for the content. *)
Definition markdown_path : list key :=
  [Key "query"; Key "pages"; Index 0; Key "revisions"; Index 0; Key "content"].

(** * Properties *)

Local Arguments Z.add : simpl never.
Local Arguments Z.sub : simpl never.
Local Arguments Z.ltb : simpl never.
Local Arguments Z.max : simpl never.
Local Arguments Z.of_N : simpl never.
Local Arguments waiting_message : simpl never.
Local Arguments token_url : simpl never.
Local Arguments String.append : simpl never.
Local Arguments truthy : simpl never.
Local Arguments getitem : simpl never.
Local Arguments dict_get : simpl never.

(** Subscripting fails with [KeyError] or [TypeError] only. *)
Lemma getitem_raises (v : pyobj) (k : string) (e : exn) :
  getitem v k = inl e -> e = KeyError k \/ e = TypeError.
Proof.
  unfold getitem. destruct v; try (intros [= <-]; by right).
  destruct (d !! k); intros [= <-]. by left.
Qed.

(** [data.get] fails with [AttributeError] only. *)
Lemma dict_get_raises (v : pyobj) (k : string) (e : exn) :
  dict_get v k = inl e -> e = AttributeError.
Proof. unfold dict_get. destruct v; by intros [= <-]. Qed.

(** [data.get(k)] against [data[k]]. *)
Lemma dict_get_inl (v : pyobj) (k : string) (e : exn) :
  dict_get v k = inl e -> getitem v k = inl TypeError.
Proof. unfold dict_get, getitem. by destruct v. Qed.

Lemma dict_get_inr (v : pyobj) (k : string) (x : pyobj) :
  dict_get v k = inr x ->
  getitem v k = inr x \/ (getitem v k = inl (KeyError k) /\ x = PNone).
Proof.
  unfold dict_get, getitem. destruct v; try done.
  destruct (d !! k); intros [= <-]; eauto.
Qed.

(** Symbolic execution: unfold the coroutine, then split on whatever the
    next effect or test depends on. *)
Ltac unfold_http :=
  unfold modify_page, async_with_lock_edit, get_token, session_get,
    session_post, setitem, subscript.

Ltac case_step :=
  match goal with
  | |- context [<[?r := _]> _ !! ?r] => rewrite lookup_insert_eq
  | |- context [from_session ?x] => destruct x eqn:?
  | |- context [lift (getitem ?v ?k)] =>
      let H := fresh "Hget" in
      let e := fresh "e" in
      destruct (getitem v k) as [e|] eqn:H;
      [destruct (getitem_raises _ _ _ H) as [-> | ->]|]
  | |- context [lift (dict_get ?v ?k)] =>
      let H := fresh "Hget" in
      let e := fresh "e" in
      destruct (dict_get v k) as [e|] eqn:H;
      [pose proof (dict_get_raises _ _ _ H) as ->|]
  | |- context [match ?h !! ?r with _ => _ end] => destruct (h !! r) eqn:?
  | |- context [match ?x with _ => _ end] => destruct x eqn:?
  | |- context [lift ?x] => destruct x eqn:?
  | |- context [if ?x then _ else _] => destruct x eqn:?
  end.

Ltac exec := cbn; repeat (case_step; cbn).

(** Membership in an explicit trace, one element at a time. *)
Ltac trace_inv H :=
  repeat (apply elem_of_cons in H as [H|H]; [try discriminate H|]);
  try (by apply elem_of_nil in H).

Ltac in_trace := repeat first [apply list_elem_of_here | apply list_elem_of_further].

(** ** [get_token] *)

(** C8. [get_token] leaves the client as it found it: [url], [logged_in],
    [last_edit] and the edit lock are unchanged (and so is every dict); it
    never waits for the lock, and all it does is one GET to the token
    endpoint, so it neither acquires the lock nor stamps [last_edit]. *)
Theorem get_token_frame (E : env) (type : string) (w : world) :
  let r := run E (get_token type) w in
  url (self (final r)) = url (self w) /\
  logged_in (self (final r)) = logged_in (self w) /\
  last_edit (self (final r)) = last_edit (self w) /\
  lock_edit (self (final r)) = lock_edit (self w) /\
  heap (final r) = heap w /\
  out r <> Blocked /\
  (exists resp, actions r = [AGet (token_url (url (self w)) type) resp]) /\
  (ALock ∉ actions r) /\
  (forall t, AStamp t ∉ actions r).
Proof.
  unfold_http. exec; repeat split; eauto; try done.
  all: intros; intros Hin; trace_inv Hin.
Qed.




(** ** [modify_page]: pacing *)

(** A block of quiet effects run under the lock and then released: it does
    not wait, the clock only moves forward, and of the client only the lock
    changes. *)
Lemma run_quiet_release {A : Type} (E : env) (p : prog A) (w : world) :
  all_events quiet p ->
  let r := run E (finally p (trigger LockRelease)) w in
  (forall a, a ∈ actions r -> is_pacing a = false) /\
  clock w <= clock (final r) /\
  self (final r) = with_lock_edit false (self w) /\
  out r <> Blocked.
Proof.
  revert w. induction p as [a|e|X ev k IH]; intros w Hp; cbn.
  - repeat split; try done; try lia. intros a' Hin. trace_inv Hin. by subst.
  - repeat split; try done; try lia. intros a' Hin. trace_inv Hin. by subst.
  - destruct Hp as [Hev Hk].
    assert (blocked ev w = false) as -> by (by destruct ev).
    destruct (perform E ev w) as [[x w'] l] eqn:Hperf.
    specialize (IH x w' (Hk x)). cbn in IH. destruct IH as (Hact & Hclock & Hself & Hout).
    assert (clock w <= clock w' /\ self w' = self w /\
            forall a, a ∈ l -> is_pacing a = false) as (Hc & Hs & Hl).
    { destruct ev; try discriminate Hev; cbn in Hperf;
        repeat match goal with
               | H : context [match ?m with _ => _ end] |- _ => destruct m
               end;
        injection Hperf as <- <- <-; cbn; (split; [lia|split; [by destruct (self w)|]]);
        intros a Hin; trace_inv Hin; by subst. }
    cbn. repeat split; try done; try lia.
    + intros a [Hin|Hin]%elem_of_app; auto.
    + by rewrite Hself, Hs.
Qed.

Section AllEvents.
Context {A B : Type} (P : forall X, event X -> bool).

Lemma all_events_bind (p : prog A) (f : A -> prog B) :
  all_events P p -> (forall a, all_events P (f a)) -> all_events P (bind p f).
Proof.
  intros Hp Hf. induction p as [a|e|X ev k IH]; cbn; [auto|done|].
  destruct Hp as [Hev Hk]. split; [done|]. intros x. by apply IH.
Qed.

Lemma all_events_try_except (p : prog A) (handles : exn -> bool) (h : prog A) :
  all_events P p -> all_events P h -> all_events P (try_except p handles h).
Proof.
  intros Hp Hh. induction p as [a|e|X ev k IH]; cbn; [done|by destruct (handles e)|].
  destruct Hp as [Hev Hk]. split; [done|]. intros x. by apply IH.
Qed.

Lemma all_events_lift (r : exn + A) : all_events P (lift r).
Proof. by destruct r. Qed.

Lemma all_events_trigger (ev : event A) : P _ ev = true -> all_events P (trigger ev).
Proof. by split. Qed.
End AllEvents.

(** Build [all_events] along the syntax of a coroutine. *)
Ltac all_events_tac :=
  repeat first
    [ apply all_events_bind; [|intros]
    | apply all_events_try_except
    | apply all_events_lift
    | apply all_events_trigger; reflexivity
    | match goal with |- all_events _ (if ?c then _ else _) => destruct c end
    | match goal with |- all_events _ (Vis _ _) => split; [reflexivity|intros] end
    | exact I ].

Lemma get_token_quiet (type : string) : all_events quiet (get_token type).
Proof. unfold get_token, session_get, subscript. all_events_tac. Qed.

Local Arguments get_token : simpl never.

(** The run of one call up to the stamp: lock, clock read [t0], the wait if
    [t0] is less than [THROTTLE] after the last stamp, a second clock read
    [t1], the stamp [t1]; nothing later touches the clock or the stamp. *)
Lemma modify_page_stamp (E : env) (action : string) (json : ref) (w : world) :
  lock_edit (self w) = false ->
  let r := run E (modify_page action json) w in
  exists t0 t1 rest,
    actions r = ALock :: ATime t0 :: pacing_wait action (t0 - last_edit (self w))
                  ++ ATime t1 :: AStamp t1 :: rest /\
    (forall a, a ∈ rest -> is_pacing a = false) /\
    clock w <= t0 /\
    t0 + Z.max 0 (if t0 - last_edit (self w) <? THROTTLE
                  then THROTTLE - (t0 - last_edit (self w)) else 0) <= t1 /\
    t1 <= clock (final r) /\
    self (final r) = with_last_edit t1 (self w) /\
    out r <> Blocked.
Proof.
  intros Hl. unfold modify_page, async_with_lock_edit, session_post, setitem, subscript.
  cbn. rewrite Hl. cbn.
  set (t0 := clock w + 0 + Z.of_N (elapse E (tick w))).
  unfold pacing_wait.
  destruct (t0 - last_edit (self w) <? THROTTLE) eqn:Hwait; cbn.
  all: match goal with |- context [run ?E' (finally ?p _) ?w'] =>
         assert (all_events quiet p) as Hq
           by (pose proof get_token_quiet; all_events_tac; auto);
         destruct (run_quiet_release E' p w' Hq) as (Hact & Hclock & Hself & Hout)
       end.
  all: eexists t0, _, _; split; [rewrite Hwait; reflexivity|].
  all: split; [exact Hact|].
  all: split; [unfold t0; lia|].
  all: split; [rewrite Hwait; unfold t0; lia|].
  all: split; [etrans; [|exact Hclock]; cbn; lia|].
  all: split; [|exact Hout].
  all: rewrite Hself; unfold with_lock_edit, with_last_edit; cbn; by rewrite Hl.
Qed.






(** [EditError] comes only from the answer to a POST. *)
Lemma modify_page_EditError_posted (E : env) (action : string) (json : ref)
    (w : world) (info : pyobj) :
  let r := run E (modify_page action json) w in
  out r = Raised (EditError info) ->
  exists u d data, APost u d (Some data) ∈ actions r.
Proof.
  unfold_http. exec; intros [=]; eexists _, _, _; in_trace.
Qed.



(** ** [modify_page]: injection and submission *)

(** What [inject] does to a mapping, key by key. *)
Lemma inject_lookup (action : string) (token : pyobj) (d : gmap string pyobj) :
  inject action token d !! "action" = Some (PStr action) /\
  inject action token d !! "format" = Some (PStr "json") /\
  inject action token d !! "token" = Some token /\
  (forall k, k ∉ control_fields -> inject action token d !! k = d !! k) /\
  dom (inject action token d) = dom d ∪ control_fields.
Proof.
  unfold inject, control_fields. repeat split.
  - by rewrite lookup_insert_ne, lookup_insert_ne, lookup_insert_eq.
  - by rewrite lookup_insert_ne, lookup_insert_eq.
  - by rewrite lookup_insert_eq.
  - intros k Hk. rewrite !not_elem_of_union, !not_elem_of_singleton in Hk.
    destruct Hk as [[? ?] ?]. by rewrite !lookup_insert_ne.
  - rewrite !dom_insert_L. apply set_eq. intros k.
    rewrite !elem_of_union. tauto.
Qed.

(** C3. Whatever is POSTed by [modify_page] is the caller's mapping [d] (as
    it was in the heap when the call started) with [action], [format] and
    [token] set: every other key of [d] is there with its value, and there
    is no key besides those of [d] and the three. *)
Theorem modify_page_request (E : env) (action : string) (json : ref) (w : world)
    (u : string) (data : gmap string pyobj) (resp : option pyobj) :
  APost u data resp ∈ actions (run E (modify_page action json) w) ->
  exists (d : gmap string pyobj) (token : pyobj),
    heap w !! json = Some d /\
    u = url (self w) /\
    data = inject action token d /\
    data !! "action" = Some (PStr action) /\
    data !! "format" = Some (PStr "json") /\
    data !! "token" = Some token /\
    (forall k, k ∉ control_fields -> data !! k = d !! k) /\
    dom data = dom d ∪ control_fields.
Proof.
  assert (forall d token, heap w !! json = Some d -> u = url (self w) ->
            data = inject action token d ->
            exists (d : gmap string pyobj) (token : pyobj),
              heap w !! json = Some d /\ u = url (self w) /\
              data = inject action token d /\
              data !! "action" = Some (PStr action) /\
              data !! "format" = Some (PStr "json") /\
              data !! "token" = Some token /\
              (forall k, k ∉ control_fields -> data !! k = d !! k) /\
              dom data = dom d ∪ control_fields) as Hfin.
  { intros d token Hd Hu ->. exists d, token.
    destruct (inject_lookup action token d) as (? & ? & ? & ? & ?). done. }
  unfold_http. exec; intros Hin; trace_inv Hin.
  all: injection Hin as -> -> ->; eapply Hfin; reflexivity.
Qed.

(** An authenticated edit of [{"title": "T"}]. *)
Lemma modify_page_request_witness :
  let E := sample_env 1 (token_response "tok") (PDict ∅) in
  let w := sample_world true 0 in
  let data := inject "edit" (PStr "tok") {["title" := PStr "T"]} in
  APost "https://wiki/api.php" data (Some (PDict ∅))
    ∈ actions (run E (modify_page "edit" 0%nat) w) /\
  dom data = {["title"]} ∪ control_fields /\
  data !! "title" = Some (PStr "T").
Proof.
  intros E w data.
  assert (APost "https://wiki/api.php" data (Some (PDict ∅))
            ∈ actions (run E (modify_page "edit" 0%nat) w)) as Hin
    by (vm_compute; in_trace).
  split; [exact Hin|].
  destruct (modify_page_request E "edit" 0%nat w _ _ _ Hin)
    as (d & token & Hd & _ & _ & _ & _ & _ & Hframe & Hdom).
  assert (d = {["title" := PStr "T"]}) as ->
    by (vm_compute in Hd; injection Hd as <-; reflexivity).
  split.
  - by rewrite Hdom, dom_singleton_L.
  - rewrite Hframe; [reflexivity|]. unfold control_fields.
    rewrite !not_elem_of_union, !not_elem_of_singleton. done.
Defined.

(** Where a call got as far as the POST, or returned, or failed with
    [EditError], the dict behind [json] has been updated in the heap. *)
Lemma modify_page_heap (E : env) (action : string) (json : ref) (w : world) :
  let r := run E (modify_page action json) w in
  (exists v, out r = Returned v) \/
  (exists info, out r = Raised (EditError info)) \/
  (exists u data resp, APost u data resp ∈ actions r) ->
  exists (d : gmap string pyobj) (token : pyobj),
    heap w !! json = Some d /\
    heap (final r) = <[json := inject action token d]> (heap w).
Proof.
  unfold_http. exec.
  all: intros [[v [=]]|[[info [=]]|(u & data & resp & Hin)]]; try trace_inv Hin.
  all: eexists _, _; split; [reflexivity|]; by rewrite !insert_insert_eq.
Qed.

(** C10. The injection is done on the caller's own dict: of a call that
    returns, or fails with [EditError], or in any way got as far as the POST,
    the dict behind the reference [json] that was passed in now holds
    [action], [format] and [token] (the rest of it, and every other dict,
    is as before). *)
Theorem modify_page_mutates_caller_dict (E : env) (action : string) (json : ref)
    (w : world) :
  let r := run E (modify_page action json) w in
  (exists v, out r = Returned v) \/
  (exists info, out r = Raised (EditError info)) \/
  (exists u data resp, APost u data resp ∈ actions r) ->
  exists (d : gmap string pyobj) (token : pyobj),
    heap w !! json = Some d /\
    heap (final r) = <[json := inject action token d]> (heap w) /\
    heap (final r) !! json = Some (inject action token d) /\
    inject action token d !! "action" = Some (PStr action) /\
    inject action token d !! "format" = Some (PStr "json") /\
    inject action token d !! "token" = Some token /\
    (forall k, k ∉ control_fields -> inject action token d !! k = d !! k).
Proof.
  intros r Hsub.
  destruct (modify_page_heap E action json w Hsub) as (d & token & Hd & Hheap).
  exists d, token. destruct (inject_lookup action token d) as (? & ? & ? & ? & ?).
  fold r in Hheap. rewrite Hheap, lookup_insert_eq. done.
Qed.

(** A rejected anonymous edit leaves the three fields in the caller's dict. *)
Lemma modify_page_mutates_caller_dict_witness :
  let E := sample_env 1 PNone (error_response "permissiondenied") in
  let r := run E (modify_page "edit" 0%nat) (sample_world false 0) in
  out r = Raised (EditError (PStr "permissiondenied")) /\
  exists m, heap (final r) !! 0%nat = Some m /\
            m !! "action" = Some (PStr "edit") /\
            m !! "format" = Some (PStr "json") /\
            is_Some (m !! "token").
Proof.
  intros E r. split; [reflexivity|].
  destruct (modify_page_mutates_caller_dict E "edit" 0%nat (sample_world false 0))
    as (d & token & _ & _ & Hjson & Haction & Hformat & Htoken & _).
  { right. left. by exists (PStr "permissiondenied"). }
  exists (inject "edit" token d). eauto.
Defined.

(** Sequencing, as the interpreter sees it. *)
Lemma run_bind {A B : Type} (E : env) (p : prog A) (f : A -> prog B) (w : world) :
  run E (bind p f) w =
  match out (run E p w) with
  | Returned a => after (actions (run E p w)) (run E (f a) (final (run E p w)))
  | Raised e => mkResult (Raised e) (final (run E p w)) (actions (run E p w))
  | Blocked => mkResult Blocked (final (run E p w)) (actions (run E p w))
  end.
Proof.
  revert w. induction p as [a|e|X ev k IH]; intros w; simpl.
  - unfold after. by destruct (run E (f a) w).
  - done.
  - destruct (blocked ev w); [done|].
    destruct (perform E ev w) as [[x w'] l]. rewrite IH.
    destruct (run E (k x) w') as [[a|e|] w1 l1]; unfold after; simpl;
      by rewrite ?app_assoc.
Qed.

Local Arguments modify_page : simpl never.

(** [Page.edit] builds its dict and hands it to [edit_page]: when the edit
    returns, that very dict (the one allocated by [Page.edit]) carries the
    three injected fields next to [title], [text] and [summary]. *)
Lemma Page_edit_dict_mutated (E : env) (title content summary : string) (w : world)
    (v : pyobj) :
  let r := run E (Page_edit title content summary) w in
  out r = Returned v ->
  v = PBool true /\
  exists token,
    heap (final r) !! fresh (dom (heap w))
    = Some (inject "edit" token
              (<["summary" := PStr summary]>
               (<["text" := PStr content]> (<["title" := PStr title]> ∅)))).
Proof.
  unfold Page_edit, edit_page. cbn.
  set (json := fresh (dom (heap w))).
  set (d := <["summary" := PStr summary]> _).
  set (w1 := pass E 0 (self w) (<[json := d]> (heap w)) w).
  rewrite !run_bind. intros Hout.
  destruct (out (run E (modify_page "edit" json) w1)) as [v'| |] eqn:Hmod;
    try discriminate Hout.
  cbn in Hout. injection Hout as <-. split; [done|].
  destruct (modify_page_heap E "edit" json w1) as (d' & token & Hd & Hheap).
  { left. by exists v'. }
  cbn in Hd. rewrite lookup_insert_eq in Hd. injection Hd as <-.
  exists token. cbn. rewrite Hheap. apply lookup_insert_eq.
Qed.

(** ** [modify_page]: the token *)

Ltac use_getitem :=
  cbn; repeat match goal with
              | H : getitem ?v ?k = _ |- context [getitem ?v ?k] => rewrite H; cbn
              end.

(** C2. A call that gets the lock on an authenticated session sends one GET
    to the token endpoint for type [csrf]; nothing is injected or POSTed
    before it, and the token injected and POSTed afterwards is the one that
    GET returned.  On an anonymous session there is no GET at all, and the
    token injected and POSTed is the placeholder. *)
Theorem modify_page_token (E : env) (action : string) (json : ref) (w : world) :
  lock_edit (self w) = false ->
  let r := run E (modify_page action json) w in
  (logged_in (self w) = true ->
   exists pre resp post,
     actions r = pre ++ AGet (token_url (url (self w)) "csrf") resp :: post /\
     (forall a, a ∈ pre -> is_injection a = false /\ is_token_request a = false) /\
     (forall a, a ∈ post -> is_token_request a = false) /\
     (forall token,
        ASetItem json "token" token ∈ post \/
        (exists u data resp', APost u data resp' ∈ post /\ data !! "token" = Some token) ->
        exists data, resp = Some data /\
                     lookup_path data (token_path "csrf") = inr token) /\
     (forall data token,
        resp = Some data -> lookup_path data (token_path "csrf") = inr token ->
        is_Some (heap w !! json) -> ASetItem json "token" token ∈ post)) /\
  (logged_in (self w) = false ->
   (forall a, a ∈ actions r -> is_token_request a = false) /\
   (forall token, ASetItem json "token" token ∈ actions r ->
                  token = PStr anonymous_token) /\
   (forall u data resp, APost u data resp ∈ actions r ->
                        data !! "token" = Some (PStr anonymous_token)) /\
   (is_Some (heap w !! json) ->
    ASetItem json "token" (PStr anonymous_token) ∈ actions r)).
Proof.
  intros Hl r. unfold r. clear r. split; intros Hlog.
  - unfold_http. exec; try congruence.
    all: first [ eexists [_; _; _; _; _; _], _, _; split; [reflexivity|]
               | eexists [_; _; _; _], _, _; split; [reflexivity|] ].
    all: split; [intros a Hin; trace_inv Hin; by subst|].
    all: split; [intros a Hin; trace_inv Hin; by subst|].
    all: split.
    all: try (intros token [Hin|(u & data & resp' & Hin & Hlook)]; trace_inv Hin;
              (simplify_eq;
               try (rewrite lookup_insert_eq in Hlook; injection Hlook as <-);
               eexists; (split; [reflexivity|]); by use_getitem)).
    all: intros data token [= <-]; use_getitem; intros Hpath Hheap;
           try discriminate Hpath; try (by destruct Hheap as [? [=]]).
    all: injection Hpath as <-; in_trace.
  - unfold_http. exec; try congruence.
    all: split; [intros a Hin; trace_inv Hin; by subst|].
    all: split; [intros token Hin; trace_inv Hin; by simplify_eq|].
    all: split; [intros u data resp Hin; trace_inv Hin; simplify_eq;
                 by rewrite lookup_insert_eq|].
    all: intros Hheap; try (by destruct Hheap as [? [=]]); in_trace.
Qed.

(** An authenticated edit asks for a token first; an anonymous move asks for
    none and posts the placeholder. *)
Lemma modify_page_token_witness :
  let E := sample_env 1 (token_response "tok") (PDict ∅) in
  let r := run E (modify_page "edit" 0%nat) (sample_world true 0) in
  let r' := run E (modify_page "move" 0%nat) (sample_world false 0) in
  (exists pre resp post,
     actions r = pre ++ AGet (token_url "https://wiki/api.php" "csrf") resp :: post /\
     ASetItem 0%nat "token" (PStr "tok") ∈ post) /\
  (forall a, a ∈ actions r' -> is_token_request a = false) /\
  ASetItem 0%nat "token" (PStr anonymous_token) ∈ actions r'.
Proof.
  intros E r r'. split.
  - destruct (modify_page_token E "edit" 0%nat (sample_world true 0) eq_refl)
      as [Hauth _].
    destruct (Hauth eq_refl) as (pre & resp & post & Hact & _ & _ & _ & Hinj).
    exists pre, resp, post. split; [exact Hact|].
    assert (resp = Some (token_response "tok")) as ->.
    { assert (AGet (token_url "https://wiki/api.php" "csrf") resp ∈ actions r) as Hin
        by (unfold r; rewrite Hact, elem_of_app, elem_of_cons; tauto).
      vm_compute in Hin. trace_inv Hin. by injection Hin as ->. }
    apply (Hinj (token_response "tok")); [reflexivity|reflexivity|].
    by exists {["title" := PStr "T"]}.
  - destruct (modify_page_token E "move" 0%nat (sample_world false 0) eq_refl)
      as [_ Hanon].
    destruct (Hanon eq_refl) as (Hnone & _ & _ & Hinj).
    split; [exact Hnone|]. apply Hinj. by exists {["title" := PStr "T"]}.
Defined.

(** ** [modify_page]: the answer to the submission *)

(** C1, as stated, fails: the server answers the POST with [{"error": {}}].
    The response has a top-level [error] entry, yet the call returns [True];
    and with [{"error": {"code": "x"}}] it is [KeyError('info')] that comes
    out, not [EditError]. *)
Lemma modify_page_error_entry_not_surfaced :
  let falsy := PDict {["error" := PDict ∅]} in
  let no_info := PDict {["error" := PDict {["code" := PStr "x"]}]} in
  let w := sample_world false 0 in
  getitem falsy "error" = inr (PDict ∅) /\
  out (run (sample_env 1 PNone falsy) (modify_page "edit" 0%nat) w)
  = Returned (PBool true) /\
  getitem no_info "error" = inr (PDict {["code" := PStr "x"]}) /\
  out (run (sample_env 1 PNone no_info) (modify_page "edit" 0%nat) w)
  = Raised (KeyError "info").
Proof. vm_compute. done. Qed.

(** C1, amended.  When the POST was answered with parsed JSON [data]:
    [modify_page] raises [EditError info] exactly when [data] is an object
    whose [error] entry is truthy and has [info] at [data["error"]["info"]];
    it returns [True] exactly when [data] is an object whose [error] entry is
    absent or falsy. *)
Theorem modify_page_surfaces_error (E : env) (action : string) (json : ref)
    (w : world) (u : string) (d : gmap string pyobj) (data : pyobj) :
  let r := run E (modify_page action json) w in
  APost u d (Some data) ∈ actions r ->
  (forall info,
     out r = Raised (EditError info) <->
     exists error, getitem data "error" = inr error /\ truthy error = true /\
                   getitem error "info" = inr info) /\
  (forall v,
     out r = Returned v <->
     v = PBool true /\
     exists error, dict_get data "error" = inr error /\ truthy error = false).
Proof.
  intros r. unfold r. clear r. unfold_http. exec; intros Hin; trace_inv Hin.
  all: simplify_eq.
  all: match goal with
       | H : dict_get _ _ = inl _ |- _ => pose proof (dict_get_inl _ _ _ H)
       | H : dict_get _ _ = inr _ |- _ =>
           destruct (dict_get_inr _ _ _ H) as [?|[? ->]]
       | _ => idtac
       end.
  all: try congruence.
  all: try match goal with H : truthy PNone = true |- _ => by vm_compute in H end.
  all: split; [intros info|intros v]; (split; [intros [=]|]); subst.
  all: try (intros (error & Herr & Htruthy & Hinfo); congruence).
  all: try (intros (-> & error & Hd & Htruthy); congruence).
  all: try match goal with
       | H1 : getitem ?x ?k = inr ?a, H2 : getitem ?x ?k = inr ?b |- _ =>
           tryif constr_eq a b then fail
           else (assert (a = b) as -> by congruence)
       end; eauto 6.
Qed.

(** A refusal is surfaced, an empty answer is a success. *)
Lemma modify_page_surfaces_error_witness :
  let w := sample_world false 0 in
  let d := inject "edit" (PStr anonymous_token) {["title" := PStr "T"]} in
  let r := run (sample_env 1 PNone (error_response "permissiondenied"))
             (modify_page "edit" 0%nat) w in
  let r' := run (sample_env 1 PNone (PDict ∅)) (modify_page "edit" 0%nat) w in
  APost "https://wiki/api.php" d (Some (error_response "permissiondenied")) ∈ actions r /\
  out r = Raised (EditError (PStr "permissiondenied")) /\
  APost "https://wiki/api.php" d (Some (PDict ∅)) ∈ actions r' /\
  out r' = Returned (PBool true).
Proof.
  intros w d r r'.
  assert (APost "https://wiki/api.php" d (Some (error_response "permissiondenied"))
            ∈ actions r) as Hin by (vm_compute; in_trace).
  assert (APost "https://wiki/api.php" d (Some (PDict ∅)) ∈ actions r') as Hin'
    by (vm_compute; in_trace).
  split; [exact Hin|]. split; [|split; [exact Hin'|]].
  - apply (modify_page_surfaces_error _ _ _ _ _ _ _ Hin).
    exists (PDict {["info" := PStr "permissiondenied"]}). done.
  - apply (modify_page_surfaces_error _ _ _ _ _ _ _ Hin').
    split; [done|]. by exists PNone.
Defined.

(** ** Several calls at once *)

Section AllEventsMono.
Context {A : Type} (P Q : forall X, event X -> bool).

Lemma all_events_impl (p : prog A) :
  (forall X (ev : event X), P X ev = true -> Q X ev = true) ->
  all_events P p -> all_events Q p.
Proof.
  intros HPQ. induction p as [a|e|X ev k IH]; cbn; [done..|].
  intros [Hev Hk]. split; [by apply HPQ|]. intros x. by apply IH.
Qed.
End AllEventsMono.

(** A block without lock effects, run with the lock and then released,
    keeps the discipline. *)
Lemma guarded_finally_release {A : Type} (p : prog A) :
  all_events lock_free p -> guarded true (finally p (trigger LockRelease)).
Proof.
  induction p as [a|e|X ev k IH]; cbn; [done..|].
  intros [Hev Hk]. unfold lock_free in Hev.
  destruct (lock_op ev) as [[]|]; try done. split; [done|]. intros x. by apply IH.
Qed.

Lemma guarded_bind {A B : Type} (held : bool) (p : prog A) (f : A -> prog B) :
  guarded held p -> (forall a, guarded false (f a)) -> guarded held (bind p f).
Proof.
  intros Hp Hf. revert held Hp.
  induction p as [a|e|X ev k IH]; cbn; intros held Hp.
  - by subst.
  - done.
  - destruct (lock_op ev) as [[]|]; destruct Hp as [-> Hk]; split; try done;
      intros x; by apply IH.
Qed.

Lemma modify_page_guarded (action : string) (json : ref) :
  guarded false (modify_page action json).
Proof.
  unfold modify_page, async_with_lock_edit, trigger.
  cbn [bind guarded lock_op]. split; [done|]. intros _.
  apply guarded_finally_release.
  pose proof (fun type => all_events_impl quiet lock_free (get_token type)
                (fun X ev => ltac:(by destruct ev)) (get_token_quiet type)).
  unfold session_post, setitem, subscript. all_events_tac; auto.
Qed.

Lemma start_guarded (c : call) : guarded false (start c).
Proof.
  destruct c; unfold start, edit_page, move_page.
  - apply guarded_bind; [apply modify_page_guarded|done].
  - apply guarded_bind; [apply modify_page_guarded|done].
  - apply modify_page_guarded.
Qed.

(** What one effect does to the lock and to the trace. *)
Lemma perform_lock {X : Type} (E : env) (ev : event X) (w w' : world) (x : X)
    (l : list action) :
  perform E ev w = (x, w', l) ->
  match lock_op ev with
  | Some true => l = [ALock] /\ lock_edit (self w') = true
  | Some false => l = [AUnlock] /\ lock_edit (self w') = false
  | None => lock_edit (self w') = lock_edit (self w) /\
            (l = [] \/ exists a, l = [a] /\ a <> ALock /\ a <> AUnlock)
  end.
Proof.
  destruct ev; cbn;
    repeat match goal with
           | |- context [match ?m with _ => _ end] => destruct m
           end;
    intros [= <- <- <-]; cbn; eauto 8.
Qed.

Lemma in_critical_section_snoc (i j : nat) (a : action) (hist : list (nat * action)) :
  in_critical_section i (hist ++ [(j, a)])
  = holds_after i (in_critical_section i hist) (j, a).
Proof. unfold in_critical_section. by rewrite fold_left_app. Qed.

Lemma in_critical_section_other (i j : nat) (a : action) (hist : list (nat * action)) :
  i <> j ->
  in_critical_section i (hist ++ [(j, a)]) = in_critical_section i hist.
Proof.
  intros Hij. rewrite in_critical_section_snoc. unfold holds_after. cbn.
  destruct (Nat.eqb_spec j i); [congruence|done].
Qed.

Lemma in_critical_section_self (i : nat) (a : action) (hist : list (nat * action)) :
  in_critical_section i (hist ++ [(i, a)])
  = match a with
    | ALock => true
    | AUnlock => false
    | _ => in_critical_section i hist
    end.
Proof.
  rewrite in_critical_section_snoc. unfold holds_after. cbn.
  by rewrite Nat.eqb_refl.
Qed.

Lemma in_critical_section_quiet (i j : nat) (a : action) (hist : list (nat * action)) :
  a <> ALock -> a <> AUnlock ->
  in_critical_section i (hist ++ [(j, a)]) = in_critical_section i hist.
Proof.
  intros Hlock Hunlock. rewrite in_critical_section_snoc. unfold holds_after. cbn.
  destruct (j =? i)%nat; [|done]. by destruct a.
Qed.

Local Arguments in_critical_section : simpl never.

Lemma alone_snoc (hist : list (nat * action)) (i : nat) (a : action) :
  alone hist ->
  (forall j, j <> i -> in_critical_section j hist = false) ->
  (a <> ALock -> in_critical_section i hist = true) ->
  alone (hist ++ [(i, a)]).
Proof.
  intros Hal Hothers Hself pre i' a' post Heq.
  destruct post as [|z post _] using rev_ind.
  - apply app_inj_tail in Heq as [<- [= <- <-]]. done.
  - change (pre ++ (i', a') :: post ++ [z]) with (pre ++ ((i', a') :: post) ++ [z]) in Heq.
    rewrite app_assoc in Heq. apply app_inj_tail in Heq as [-> _].
    by eapply Hal.
Qed.

Lemma invariant_initial (calls : list call) (w : world) :
  lock_edit (self w) = false -> invariant (initial calls w).
Proof.
  intros Hl. split; [|split; [|split]]; cbn.
  - intros i p Hp. change (map start calls) with (start <$> calls) in Hp.
    apply list_lookup_fmap_Some_1 in Hp as (c & -> & _).
    apply start_guarded.
  - done.
  - done.
  - intros pre i a post Heq. by destruct pre.
Qed.

Lemma invariant_step (E : env) (c c' : config) :
  invariant c -> step E c c' -> invariant c'.
Proof.
  intros (Htasks & Hfree & Hone & Halone) Hstep.
  destruct Hstep as [i X ev k ts w w' hist x l Hi Hblocked Hperf]. cbn in *.
  pose proof (Htasks i _ Hi) as Hg. cbn in Hg.
  pose proof (perform_lock E ev w w' x l Hperf) as Hlock.
  pose proof (lookup_lt_Some _ _ _ Hi) as Hlen.
  assert (forall j p, j <> i -> <[i := k x]> ts !! j = Some p ->
            guarded (in_critical_section j hist) p) as Hrest.
  { intros j p Hji Hj. rewrite list_lookup_insert_ne in Hj by done. by apply Htasks. }
  destruct (lock_op ev) as [[]|] eqn:Hop.
  - (* the lock is taken *)
    destruct Hlock as [-> Hl'], Hg as [Hout Hk].
    assert (lock_edit (self w) = false) as Hl by (by destruct ev).
    specialize (Hfree Hl).
    split; [|split; [|split]]; cbn.
    + intros j p Hj. destruct (decide (j = i)) as [->|Hji].
      * rewrite list_lookup_insert_eq in Hj by done. injection Hj as <-.
        rewrite in_critical_section_self. apply Hk.
      * rewrite in_critical_section_other by done. by apply Hrest.
    + congruence.
    + intros j j' Hj Hj'.
      destruct (decide (j = i)) as [->|Hji], (decide (j' = i)) as [->|Hji']; try done.
      * rewrite in_critical_section_other, Hfree in Hj'; done.
      * rewrite in_critical_section_other, Hfree in Hj; done.
      * rewrite in_critical_section_other, Hfree in Hj; done.
    + apply alone_snoc; [done|by intros|done].
  - (* the lock is given back *)
    destruct Hlock as [-> Hl'], Hg as [Hin Hk].
    assert (forall j, j <> i -> in_critical_section j hist = false) as Hothers.
    { intros j Hji. destruct (in_critical_section j hist) eqn:Hj; [|done].
      by specialize (Hone _ _ Hj Hin). }
    split; [|split; [|split]]; cbn.
    + intros j p Hj. destruct (decide (j = i)) as [->|Hji].
      * rewrite list_lookup_insert_eq in Hj by done. injection Hj as <-.
        rewrite in_critical_section_self. apply Hk.
      * rewrite in_critical_section_other by done. by apply Hrest.
    + intros _ j. destruct (decide (j = i)) as [->|Hji].
      * by rewrite in_critical_section_self.
      * rewrite in_critical_section_other by done. by apply Hothers.
    + intros j j' Hj Hj'.
      destruct (decide (j = i)) as [->|Hji].
      * by rewrite in_critical_section_self in Hj.
      * rewrite in_critical_section_other, Hothers in Hj; done.
    + apply alone_snoc; done.
  - (* anything else *)
    destruct Hlock as [Hl' Hl], Hg as [Hin Hk].
    assert (forall j, j <> i -> in_critical_section j hist = false) as Hothers.
    { intros j Hji. destruct (in_critical_section j hist) eqn:Hj; [|done].
      by specialize (Hone _ _ Hj Hin). }
    assert (forall j, in_critical_section j (hist ++ map (pair i) l)
                      = in_critical_section j hist) as Hsame.
    { intros j. destruct Hl as [->|(a & -> & Ha & Ha')]; cbn.
      - by rewrite app_nil_r.
      - by apply in_critical_section_quiet. }
    split; [|split; [|split]]; cbn.
    + intros j p Hj. rewrite Hsame. destruct (decide (j = i)) as [->|Hji].
      * rewrite list_lookup_insert_eq in Hj by done. injection Hj as <-.
        rewrite Hin. apply Hk.
      * by apply Hrest.
    + intros Hfree' j. rewrite Hsame. apply Hfree. congruence.
    + intros j j'. rewrite !Hsame. apply Hone.
    + destruct Hl as [->|(a & -> & Ha & Ha')]; cbn.
      * by rewrite app_nil_r.
      * apply alone_snoc; done.
Qed.

Lemma invariant_reachable (E : env) (c c' : config) :
  invariant c -> rtc (step E) c c' -> invariant c'.
Proof. intros Hc Hsteps. induction Hsteps; eauto using invariant_step. Qed.

(** C6. Any number of calls ([edit_page], [move_page], [modify_page]) are
    started on one client whose lock is free, and the event loop interleaves
    them in any way, effect by effect.  Then, at every moment, at most one
    call is between taking and giving back the lock; and whenever a call did
    anything (read the clock, slept, stamped, asked for the token, injected,
    POSTed, released), no other call was in its critical section, and, unless
    what it did was to take the lock, it was in its own. *)
Theorem modify_page_mutual_exclusion (E : env) (calls : list call) (w : world)
    (c : config) :
  lock_edit (self w) = false ->
  rtc (step E) (initial calls w) c ->
  (forall i j, in_critical_section i (history c) = true ->
               in_critical_section j (history c) = true -> i = j) /\
  (forall pre i a post,
     history c = pre ++ (i, a) :: post ->
     (forall j, j <> i -> in_critical_section j pre = false) /\
     (a <> ALock -> in_critical_section i pre = true)).
Proof.
  intros Hl Hsteps.
  destruct (invariant_reachable E _ _ (invariant_initial calls w Hl) Hsteps)
    as (_ & _ & Hone & Halone).
  split; [exact Hone|exact Halone].
Qed.

(** The explicit scheduler only makes steps of the event loop. *)
Lemma fire_reachable (E : env) (i : nat) (c : config) : rtc (step E) c (fire E i c).
Proof.
  unfold fire. destruct c as [ts w hist]; cbn.
  destruct (ts !! i) as [[a|e|X ev k]|] eqn:Hi; try apply rtc_refl.
  destruct (blocked ev w) eqn:Hb; [apply rtc_refl|].
  destruct (perform E ev w) as [[x w'] l] eqn:Hperf.
  apply rtc_once. by eapply step_task.
Qed.

Lemma schedule_reachable (E : env) (order : list nat) (c : config) :
  rtc (step E) c (schedule E order c).
Proof.
  revert c. induction order as [|i order IH]; intros c; cbn; [apply rtc_refl|].
  etrans; [apply fire_reachable|apply IH].
Qed.

(** An edit and a move on one client; the move gets the lock first and is
    three effects into its critical section; the edit was resumed meanwhile
    and could not get in. *)
Lemma modify_page_mutual_exclusion_witness :
  let E := sample_env 1 (token_response "tok") (PDict ∅) in
  let w := sample_world true 0 in
  let c := schedule E [1; 0; 1; 1; 0; 1]%nat (initial [CallEdit 0%nat; CallMove 0%nat] w) in
  lock_edit (self w) = false /\
  in_critical_section 1 (history c) = true /\
  forall j, in_critical_section j (history c) = true -> j = 1%nat.
Proof.
  intros E w c. split; [reflexivity|].
  assert (in_critical_section 1 (history c) = true) as Hin by (by vm_compute).
  split; [exact Hin|]. intros j Hj.
  by apply (modify_page_mutual_exclusion E [CallEdit 0%nat; CallMove 0%nat] w c
              eq_refl (schedule_reachable E _ _)).
Defined.

(** * Further properties of the throttle *)

(** What is POSTed, and what the heap is afterwards. *)
Lemma modify_page_posted (E : env) (action : string) (json : ref) (w : world)
    (u : string) (data : gmap string pyobj) (resp : option pyobj) :
  let r := run E (modify_page action json) w in
  APost u data resp ∈ actions r ->
  exists (d : gmap string pyobj) (token : pyobj),
    heap w !! json = Some d /\
    data = inject action token d /\
    heap (final r) = <[json := data]> (heap w).
Proof.
  unfold_http. exec; intros Hin; trace_inv Hin.
  all: simplify_eq; eexists _, _; split; [reflexivity|]; split; [reflexivity|].
  all: by rewrite !insert_insert_eq.
Qed.

(** X1. Whatever way a call that got the lock ends (it returns, or raises
    [EditError], [TokenGetError], [KeyError], [TypeError], [AttributeError]
    or the error of the HTTP layer), it has given the lock back: the trace
    starts with the one [ALock], ends with the one [AUnlock], and the lock is
    free in the end. *)
Theorem modify_page_releases_lock (E : env) (action : string) (json : ref) (w : world) :
  lock_edit (self w) = false ->
  let r := run E (modify_page action json) w in
  out r <> Blocked /\
  lock_edit (self (final r)) = false /\
  head (actions r) = Some ALock /\
  last (actions r) = Some AUnlock /\
  List.filter is_lock_action (actions r) = [ALock; AUnlock].
Proof.
  intros Hl. unfold_http. exec; try congruence.
  all: repeat split; done.
Qed.

Lemma modify_page_releases_lock_witness :
  let E := sample_env 1 (PDict ∅) PNone in
  let w := sample_world true 0 in
  let r := run E (modify_page "edit" 0%nat) w in
  lock_edit (self w) = false /\
  out r = Raised (KeyError "error") /\
  lock_edit (self (final r)) = false /\
  last (actions r) = Some AUnlock.
Proof.
  intros E w r. split; [reflexivity|]. split; [reflexivity|].
  destruct (modify_page_releases_lock E "edit" 0%nat w eq_refl)
    as (_ & Hlock & _ & Hlast & _).
  split; [exact Hlock|exact Hlast].
Defined.

(** X2. When the token request of an authenticated call fails with
    [TokenGetError], nothing has been injected and nothing is POSTed: every
    dict is as it was.  But the call has already stamped [last_edit]. *)
Theorem modify_page_token_failure (E : env) (action : string) (json : ref)
    (w : world) (info : pyobj) :
  let r := run E (modify_page action json) w in
  out r = Raised (TokenGetError info) ->
  logged_in (self w) = true /\
  heap (final r) = heap w /\
  (forall a, a ∈ actions r -> is_injection a = false) /\
  exists t, AStamp t ∈ actions r /\ last_edit (self (final r)) = t /\
            lock_edit (self (final r)) = false.
Proof.
  unfold_http. exec; intros [=]; subst.
  all: repeat split; try done.
  all: try (intros a Hin; trace_inv Hin; by subst).
  all: eexists; split; [in_trace|done].
Qed.

Lemma modify_page_token_failure_witness :
  let E := sample_env 1 (error_response "readapidenied") PNone in
  let w := sample_world true 0 in
  let r := run E (modify_page "edit" 0%nat) w in
  out r = Raised (TokenGetError (PStr "readapidenied")) /\
  heap (final r) = heap w /\
  last_edit (self (final r)) <> last_edit (self w).
Proof.
  intros E w r.
  assert (out r = Raised (TokenGetError (PStr "readapidenied"))) as Hout
    by reflexivity.
  split; [exact Hout|].
  destruct (modify_page_token_failure E "edit" 0%nat w _ Hout)
    as (_ & Hheap & _ & t & _ & Hlast & _).
  split; [exact Hheap|]. by vm_compute.
Defined.

(** Injecting twice is injecting once: the three keys are overwritten. *)
Lemma inject_inject (a1 a2 : string) (t1 t2 : pyobj) (d : gmap string pyobj) :
  inject a2 t2 (inject a1 t1 d) = inject a2 t2 d.
Proof.
  unfold inject. apply map_eq. intros k.
  rewrite !lookup_insert. repeat case_decide; congruence.
Qed.

(** X3. A dict may be used again: when a second call is made with the dict
    a first call has left (say an edit, then a move), what the second call
    POSTs is the caller's original mapping with the second call's three
    fields; nothing of the first call's action or token is sent again. *)
Theorem modify_page_dict_reuse (E E' : env) (a1 a2 : string) (json : ref)
    (w w' : world) (u1 u2 : string) (d1 d2 : gmap string pyobj)
    (resp1 resp2 : option pyobj) :
  let r := run E (modify_page a1 json) w in
  APost u1 d1 resp1 ∈ actions r ->
  heap w' = heap (final r) ->
  let r' := run E' (modify_page a2 json) w' in
  APost u2 d2 resp2 ∈ actions r' ->
  exists (d : gmap string pyobj) (t1 t2 : pyobj),
    heap w !! json = Some d /\
    d1 = inject a1 t1 d /\
    d2 = inject a2 t2 d /\
    heap (final r') = <[json := d2]> (heap w).
Proof.
  intros r Hpost Hheap r' Hpost'.
  destruct (modify_page_posted E a1 json w u1 d1 resp1 Hpost)
    as (d & t1 & Hd & -> & Hfinal).
  destruct (modify_page_posted E' a2 json w' u2 d2 resp2 Hpost')
    as (d' & t2 & Hd' & -> & Hfinal').
  fold r in Hfinal. fold r' in Hfinal'.
  rewrite Hheap, Hfinal, lookup_insert_eq in Hd'. injection Hd' as <-.
  exists d, t1, t2. rewrite inject_inject in *.
  repeat split; try done.
  by rewrite Hfinal', Hheap, Hfinal, insert_insert_eq.
Qed.

Lemma modify_page_dict_reuse_witness :
  let E := sample_env 1 (token_response "tok") (PDict ∅) in
  let w := sample_world true 0 in
  let r := run E (modify_page "edit" 0%nat) w in
  let r' := run E (modify_page "move" 0%nat) (final r) in
  exists d2 t2,
    APost "https://wiki/api.php" d2 (Some (PDict ∅)) ∈ actions r' /\
    d2 = inject "move" t2 {["title" := PStr "T"]}.
Proof.
  intros E w r r'.
  assert (APost "https://wiki/api.php"
            (inject "edit" (PStr "tok") {["title" := PStr "T"]}) (Some (PDict ∅))
            ∈ actions r) as Hin by (vm_compute; in_trace).
  assert (APost "https://wiki/api.php"
            (inject "move" (PStr "tok") {["title" := PStr "T"]}) (Some (PDict ∅))
            ∈ actions r') as Hin' by (vm_compute; in_trace).
  destruct (modify_page_dict_reuse E E "edit" "move" 0%nat w (final r) _ _ _ _ _ _
              Hin eq_refl Hin') as (d & t1 & t2 & Hd & _ & Hd2 & _).
  assert (d = {["title" := PStr "T"]}) as ->
    by (vm_compute in Hd; injection Hd as <-; reflexivity).
  eexists _, t2. split; [exact Hin'|exact Hd2].
Defined.

(** * The callers in [page.py] *)

(** A coroutine followed by [return b]. *)
Lemma run_bind_ret {A B : Type} (E : env) (p : prog A) (b : B) (w : world) :
  run E (bind p (fun _ => Ret b)) w
  = mkResult match out (run E p w) with
             | Returned _ => Returned b
             | Raised e => Raised e
             | Blocked => Blocked
             end (final (run E p w)) (actions (run E p w)).
Proof.
  rewrite run_bind. destruct (run E p w) as [[a|e|] w' l]; cbn; try done.
  unfold after. cbn. by rewrite app_nil_r.
Qed.

(** Lookups in maps written as a chain of inserts. *)
Ltac lookup_tac :=
  rewrite ?lookup_insert, ?lookup_empty; repeat case_decide; try congruence; done.

(** X4. [Page.edit] sends one request at most, and what it POSTs is exactly
    [title], [text] and [summary] as given, [action = "edit"],
    [format = "json"] and [token].  It works on a dict of its own: no dict
    that existed before is changed.  If it returns, it returns [True]. *)
Theorem Page_edit_request (E : env) (title content summary : string) (w : world)
    (u : string) (data : gmap string pyobj) (resp : option pyobj) :
  let r := run E (Page_edit title content summary) w in
  APost u data resp ∈ actions r ->
  (exists token, data = inject "edit" token (edit_fields title content summary)) /\
  dom data = {["title"; "text"; "summary"; "action"; "format"; "token"]} /\
  data !! "title" = Some (PStr title) /\
  data !! "text" = Some (PStr content) /\
  data !! "summary" = Some (PStr summary) /\
  data !! "action" = Some (PStr "edit") /\
  (forall j, is_Some (heap w !! j) -> heap (final r) !! j = heap w !! j) /\
  (forall v, out r = Returned v -> v = PBool true).
Proof.
  unfold Page_edit, edit_page. cbn.
  set (json := fresh (dom (heap w))).
  fold (edit_fields title content summary).
  set (w1 := pass E 0 (self w) (<[json := edit_fields title content summary]> (heap w)) w).
  rewrite !run_bind_ret. cbn. intros Hin.
  apply elem_of_cons in Hin as [[=]|Hin].
  destruct (modify_page_posted E "edit" json w1 u data resp Hin)
    as (d & token & Hd & -> & Hfinal).
  cbn in Hd. rewrite lookup_insert_eq in Hd. injection Hd as <-.
  split; [by exists token|].
  destruct (inject_lookup "edit" token (edit_fields title content summary))
    as (Haction & _ & _ & Hframe & Hdom).
  assert (forall k, k ∈ ({["title"; "text"; "summary"]} : gset string) ->
                    k ∉ control_fields) as Hother.
  { intros k Hk. unfold control_fields.
    rewrite !elem_of_union, !elem_of_singleton in Hk.
    rewrite !not_elem_of_union, !not_elem_of_singleton.
    destruct Hk as [[->| ->]| ->]; done. }
  split; [|split; [|split; [|split; [|split; [|split]]]]].
  - rewrite Hdom. unfold edit_fields, control_fields.
    rewrite !dom_insert_L, dom_empty_L. apply set_eq. intros k.
    rewrite !elem_of_union, !elem_of_singleton, elem_of_empty. tauto.
  - rewrite Hframe by (apply Hother; rewrite !elem_of_union, !elem_of_singleton; tauto).
    unfold edit_fields. lookup_tac.
  - rewrite Hframe by (apply Hother; rewrite !elem_of_union, !elem_of_singleton; tauto).
    unfold edit_fields. lookup_tac.
  - rewrite Hframe by (apply Hother; rewrite !elem_of_union, !elem_of_singleton; tauto).
    unfold edit_fields. lookup_tac.
  - done.
  - intros j Hj. rewrite Hfinal. cbn.
    assert (j <> json) as Hne.
    { intros ->. apply (is_fresh (dom (heap w))). by apply elem_of_dom. }
    by rewrite !lookup_insert_ne.
  - destruct (out (run E (modify_page "edit" json) w1)); by intros v [= <-].
Qed.

Lemma Page_edit_request_witness :
  let E := sample_env 1 PNone (PDict ∅) in
  let w := sample_world false 0 in
  let r := run E (Page_edit "T" "hello" "") w in
  out r = Returned (PBool true) /\
  (exists data, APost "https://wiki/api.php" data (Some (PDict ∅)) ∈ actions r /\
                data !! "text" = Some (PStr "hello")) /\
  heap (final r) !! 0%nat = Some {["title" := PStr "T"]}.
Proof.
  intros E w r. split; [reflexivity|].
  assert (APost "https://wiki/api.php"
            (inject "edit" (PStr anonymous_token) (edit_fields "T" "hello" ""))
            (Some (PDict ∅)) ∈ actions r) as Hin by (vm_compute; in_trace).
  destruct (Page_edit_request E "T" "hello" "" w _ _ _ Hin)
    as (_ & _ & _ & Htext & _ & _ & Hframe & _).
  split; [eexists; split; [exact Hin|exact Htext]|].
  fold r in Hframe. rewrite Hframe; [reflexivity|]. by eexists.
Defined.



(** * Interleavings are serial *)

Lemma closing_finally_release {A : Type} (p : prog A) :
  all_events lock_free p -> closing (finally p (trigger LockRelease)).
Proof.
  induction p as [a|e|X ev k IH]; cbn; [done..|].
  intros [Hev Hk]. unfold lock_free in Hev.
  destruct (lock_op ev) as [[]|]; try done. intros x. by apply IH.
Qed.

Lemma closing_bind_ret {A B : Type} (p : prog A) (b : B) :
  closing p -> closing (bind p (fun _ => Ret b)).
Proof.
  induction p as [a|e|X ev k IH]; cbn; [done..|].
  destruct (lock_op ev) as [[]|]; try done.
  - intros Hk x. specialize (Hk x). by destruct (k x).
  - intros Hk x. by apply IH.
Qed.

Lemma modify_page_opening (action : string) (json : ref) :
  opening (modify_page action json).
Proof.
  unfold modify_page, async_with_lock_edit, trigger.
  cbn [bind opening lock_op]. split; [done|]. intros _.
  apply closing_finally_release.
  pose proof (fun type => all_events_impl quiet lock_free (get_token type)
                (fun X ev => ltac:(by destruct ev)) (get_token_quiet type)).
  unfold session_post, setitem, subscript. all_events_tac; auto.
Qed.

Lemma start_opening (c : call) : opening (start c).
Proof.
  destruct c; unfold start, edit_page, move_page;
    try apply modify_page_opening.
  all: pose proof (modify_page_opening "edit" json) as He;
       pose proof (modify_page_opening "move" json) as Hm.
  - destruct (modify_page "edit" json) as [| |X ev k]; try done.
    cbn. destruct He as [Hop Hk]. split; [done|]. intros x.
    by apply closing_bind_ret.
  - destruct (modify_page "move" json) as [| |X ev k]; try done.
    cbn. destruct Hm as [Hop Hk]. split; [done|]. intros x.
    by apply closing_bind_ret.
Qed.

Lemma serial_snoc (E : env) (calls : list call) (order : list nat) (i : nat) (w : world) :
  serial E calls (order ++ [i]) w = serial_step E calls (serial E calls order w) i.
Proof. unfold serial. by rewrite fold_left_app. Qed.

Lemma after_after {A : Type} (l1 l2 : list action) (r : result A) :
  after l1 (after l2 r) = after (l1 ++ l2) r.
Proof. unfold after. cbn. by rewrite app_assoc. Qed.

Lemma run_finished {A : Type} (E : env) (p : prog A) (w : world) :
  finished p -> exists o, run E p w = mkResult o w [] /\ ended o = Some p.
Proof. destruct p; [by eexists (Returned _)|by eexists (Raised _)|done]. Qed.

Lemma blocked_acquire {X : Type} (ev : event X) (w : world) :
  lock_op ev = Some true -> blocked ev w = lock_edit (self w).
Proof. by destruct ev. Qed.

Lemma blocked_other {X : Type} (ev : event X) (w : world) :
  lock_op ev <> Some true -> blocked ev w = false.
Proof. by destruct ev. Qed.

Lemma serialized_initial (E : env) (calls : list call) (w : world) :
  lock_edit (self w) = false -> serialized E calls w (initial calls w).
Proof.
  intros Hl. exists [], None, w, [], []. cbn.
  split; [done|]. split; [constructor|]. split; [done|]. split; [done|].
  split; [|done].
  intros j p Hp. change (map start calls) with (start <$> calls) in Hp.
  apply list_lookup_fmap_Some_1 in Hp as (c & -> & Hc).
  right. right. split; [apply not_elem_of_nil|]. split; [done|]. by exists c.
Qed.

Lemma serialized_step (E : env) (calls : list call) (w : world) (c c' : config) :
  serialized E calls w c -> step E c c' -> serialized E calls w c'.
Proof.
  intros (order & holder & w_s & h_s & outs & Hser & Hnodup & Houts & Hfree
          & Htasks & Hphase) Hstep.
  destruct Hstep as [j X ev k ts wc w' hist x l Hj Hblocked Hperf]. cbn in *.
  pose proof (perform_lock E ev wc w' x l Hperf) as Hlock.
  pose proof (lookup_lt_Some _ _ _ Hj) as Hlen.
  destruct (Htasks j _ Hj) as [(o & _ & Ho)|[Hholder|(Hnew & Hnot & cj & Hcj & Hstart)]].
  { by destruct o. }
  - (* the coroutine in its critical section goes on *)
    subst holder. destruct Hphase as (ci & sect & Hi & Hci & _ & Hclosing & Hheld
                                      & Hhist & Hrun).
    cbn in Hclosing. cbn [run] in Hrun. rewrite Hblocked, Hperf in Hrun.
    rewrite after_after in Hrun.
    destruct (lock_op ev) as [[]|] eqn:Hop; [done| |].
    + (* it gives the lock back and is over *)
      destruct Hlock as [-> Hl'].
      destruct (run_finished E (k x) w' (Hclosing x)) as (o & Hrunk & Ho).
      rewrite Hrunk in Hrun.
      exists (order ++ [j]), None, w', (h_s ++ map (pair j) (sect ++ [AUnlock])),
             (outs ++ [(j, o)]).
      cbn [tasks shared history].
      split; [by rewrite serial_snoc, Hser; cbn; rewrite Hci, Hrun; cbn;
                rewrite app_nil_r|].
      split; [apply NoDup_app; repeat split; [done| |apply NoDup_singleton];
              intros y Hy ->%list_elem_of_singleton; done|].
      split; [by rewrite fmap_app, Houts|].
      split; [done|]. split; [|by rewrite Hhist, map_app, app_assoc].
      intros j' p' Hp'. cbn in Hp'. destruct (decide (j' = j)) as [Heq|Hne]; [subst j'|].
      * rewrite list_lookup_insert_eq in Hp' by done. injection Hp' as <-.
        left. exists o. split; [|done]. apply elem_of_app. right. by left.
      * rewrite list_lookup_insert_ne in Hp' by done.
        destruct (Htasks j' p' Hp')
          as [(o' & Ho' & He')|[[= ? ?]|(Hnew' & _ & c0 & Hc0 & ->)]]; [|congruence|].
        -- left. exists o'. split; [|done]. apply elem_of_app. by left.
        -- right. right. split; [|split; [done|by exists c0]].
           rewrite fmap_app, elem_of_app. intros [?|?%list_elem_of_singleton]; done.
    + (* it goes on inside *)
      destruct Hlock as [Hl' Hl].
      exists order, (Some (j, k x)), w_s, h_s, outs.
      cbn [tasks shared history].
      split; [done|]. split; [done|]. split; [done|]. split; [done|]. split.
      * intros j' p' Hp'. cbn in Hp'. destruct (decide (j' = j)) as [Heq|Hne]; [subst j'|].
        -- rewrite list_lookup_insert_eq in Hp' by done. injection Hp' as <-.
           right. by left.
        -- rewrite list_lookup_insert_ne in Hp' by done.
           destruct (Htasks j' p' Hp')
             as [(o' & Ho' & He')|[[= ? ?]|(Hnew' & _ & c0 & Hc0 & ->)]]; [|congruence|].
           ++ left. by exists o'.
           ++ right. right. split; [done|]. split; [|by exists c0].
              intros q [= -> _]. done.
      * exists ci, (sect ++ l). split; [done|]. split; [done|].
        split; [by rewrite list_lookup_insert_eq|]. split; [apply Hclosing|].
        split; [congruence|]. split; [|done].
        by rewrite Hhist, map_app, app_assoc.
  - (* a call that has not started takes the lock *)
    pose proof (start_opening cj) as Hopen. rewrite <- Hstart in Hopen.
    destruct Hopen as [Hop Hclosing]. rewrite Hop in Hlock.
    destruct Hlock as [-> Hl'].
    rewrite (blocked_acquire ev wc Hop) in Hblocked.
    destruct holder as [[i p]|].
    { destruct Hphase as (? & ? & _ & _ & _ & _ & Hheld & _). congruence. }
    destruct Hphase as [-> ->].
    exists order, (Some (j, k x)), w_s, h_s, outs.
    cbn [tasks shared history].
    split; [done|]. split; [done|]. split; [done|]. split; [done|]. split.
    + intros j' p' Hp'. cbn in Hp'. destruct (decide (j' = j)) as [Heq|Hne]; [subst j'|].
      * rewrite list_lookup_insert_eq in Hp' by done. injection Hp' as <-.
        right. by left.
      * rewrite list_lookup_insert_ne in Hp' by done.
        destruct (Htasks j' p' Hp')
          as [(o' & Ho' & He')|[[=]|(Hnew' & _ & c0 & Hc0 & ->)]].
        -- left. by exists o'.
        -- right. right. split; [done|]. split; [|by exists c0].
           intros q [= -> _]. done.
    + exists cj, [ALock]. split; [by rewrite <- Houts|]. split; [done|].
      split; [by rewrite list_lookup_insert_eq|]. split; [apply Hclosing|].
      split; [done|]. split; [done|].
      rewrite <- Hstart. cbn.
      rewrite (blocked_acquire ev w_s Hop), Hblocked, Hperf. done.
Qed.

Lemma serialized_reachable (E : env) (calls : list call) (w : world) (c c' : config) :
  serialized E calls w c -> rtc (step E) c c' -> serialized E calls w c'.
Proof. intros Hc Hsteps. induction Hsteps; eauto using serialized_step. Qed.

(** X6. However the event loop interleaves the calls, what has happened is
    what happens when calls are made one after the other: the history is
    always the beginning of the history of some order of complete calls; and
    at a moment when the lock is free it is exactly such a history, the world
    is the world those calls leave, every call of the order is over with the
    outcome it has on its own, and every other call has not started. *)
Theorem interleaving_is_serial (E : env) (calls : list call) (w : world) (c : config) :
  lock_edit (self w) = false ->
  rtc (step E) (initial calls w) c ->
  (exists order w' h outs,
     NoDup order /\ serial E calls order w = (w', h, outs) /\
     history c `prefix_of` h) /\
  (lock_edit (self (shared c)) = false ->
   exists order outs,
     NoDup order /\ outs.*1 = order /\
     serial E calls order w = (shared c, history c, outs) /\
     forall j p, tasks c !! j = Some p ->
       (exists o, (j, o) ∈ outs /\ ended o = Some p) \/
       ((j ∉ order) /\ exists cj, calls !! j = Some cj /\ p = start cj)).
Proof.
  intros Hl Hsteps.
  destruct (serialized_reachable E calls w _ c (serialized_initial E calls w Hl) Hsteps)
    as (order & holder & w_s & h_s & outs & Hser & Hnodup & Houts & Hfree
        & Htasks & Hphase).
  destruct holder as [[i p]|].
  - destruct Hphase as (ci & sect & Hi & Hci & Hp & Hclosing & Hheld & Hhist & Hrun).
    split; [|congruence].
    exists (order ++ [i]). eexists _, _, _. split; [|split].
    + apply NoDup_app; repeat split; [done| |apply NoDup_singleton].
      intros y Hy ->%list_elem_of_singleton. done.
    + rewrite serial_snoc, Hser. cbn. rewrite Hci. reflexivity.
    + rewrite Hhist, Hrun. cbn. rewrite map_app.
      apply prefix_app, prefix_app_r. done.
  - destruct Hphase as [Hw Hh]. split.
    + exists order, w_s, h_s, outs. by rewrite Hh.
    + intros _. exists order, outs. rewrite Hw, Hh.
      split; [done|]. split; [done|]. split; [done|].
      intros j p Hj. destruct (Htasks j p Hj) as [?|[[=]|(Hnew & _ & Hc)]]; [by left|].
      right. by rewrite <- Houts.
Qed.

(** An edit and a move, the move first, the edit resumed in vain while the
    move has the lock; at the end both are over. *)
Lemma interleaving_is_serial_witness :
  let E := sample_env 1 (token_response "tok") (PDict ∅) in
  let w := sample_world true 0 in
  let calls := [CallEdit 0%nat; CallMove 0%nat] in
  let c := schedule E ([1; 0; 1; 0] ++ repeat 1%nat 20 ++ repeat 0%nat 20)%nat
             (initial calls w) in
  lock_edit (self w) = false /\
  lock_edit (self (shared c)) = false /\
  length (history c) = 22%nat /\
  exists order outs,
    NoDup order /\ serial E calls order w = (shared c, history c, outs).
Proof.
  intros E w calls c. split; [reflexivity|].
  assert (lock_edit (self (shared c)) = false) as Hfree by (by vm_compute).
  split; [exact Hfree|]. split; [by vm_compute|].
  destruct (interleaving_is_serial E calls w c eq_refl (schedule_reachable E _ _))
    as [_ Hserial].
  destruct (Hserial Hfree) as (order & outs & Hnodup & _ & Hser & _).
  exists order, outs. exact (conj Hnodup Hser).
Defined.

(** X7. The event loop never gets stuck: as long as some call is not over,
    some call can be resumed (the one that has the lock if there is one,
    any that is not over otherwise). *)
Theorem interleaving_no_deadlock (E : env) (calls : list call) (w : world) (c : config) :
  lock_edit (self w) = false ->
  rtc (step E) (initial calls w) c ->
  (exists j p, tasks c !! j = Some p /\ ~ finished p) ->
  exists c', step E c c'.
Proof.
  intros Hl Hsteps (j & p & Hj & Hp).
  destruct (serialized_reachable E calls w _ c (serialized_initial E calls w Hl) Hsteps)
    as (order & holder & w_s & h_s & outs & Hser & Hnodup & Houts & Hfree
        & Htasks & Hphase).
  destruct c as [ts wc hist]. cbn in *.
  assert (forall i X (ev : event X) k, ts !! i = Some (Vis ev k) ->
            blocked ev wc = false -> exists c', step E (mkConfig ts wc hist) c') as Hgo.
  { intros i X ev k Hi Hb. destruct (perform E ev wc) as [[x w'] l] eqn:Hperf.
    eexists. by eapply step_task. }
  destruct holder as [[i q]|].
  - destruct Hphase as (ci & sect & _ & _ & Hi & Hclosing & _).
    destruct q as [| |X ev k]; try done. cbn in Hclosing.
    apply (Hgo i X ev k Hi). apply blocked_other.
    by destruct (lock_op ev) as [[]|].
  - destruct Hphase as [-> _]. destruct p as [| |X ev k]; try (by destruct Hp).
    apply (Hgo j X ev k Hj). by destruct ev.
Qed.

Lemma interleaving_no_deadlock_witness :
  let E := sample_env 1 (token_response "tok") (PDict ∅) in
  let w := sample_world true 0 in
  let calls := [CallEdit 0%nat; CallMove 0%nat] in
  let c := schedule E [1; 0; 1; 1; 0; 1]%nat (initial calls w) in
  lock_edit (self w) = false /\
  lock_edit (self (shared c)) = true /\
  exists c', step E c c'.
Proof.
  intros E w calls c. split; [reflexivity|]. split; [by vm_compute|].
  apply (interleaving_no_deadlock E calls w c eq_refl (schedule_reachable E _ _)).
  exists 0%nat, (start (CallEdit 0%nat)). split; [by vm_compute|].
  vm_compute. tauto.
Defined.

(** The stamps of the actions of one coroutine. *)
Lemma stamps_tagged_quiet (i : nat) (l : list action) :
  (forall a, a ∈ l -> is_pacing a = false) -> stamps (map (pair i) l) = [].
Proof.
  induction l as [|a l IH]; intros Hl; [done|].
  unfold stamps in *. cbn. rewrite IH.
  - pose proof (Hl a ltac:(by left)) as Ha. by destruct a.
  - intros b Hb. apply Hl. by right.
Qed.

Lemma stamps_app (h1 h2 : list (nat * action)) :
  stamps (h1 ++ h2) = stamps h1 ++ stamps h2.
Proof. apply omap_app. Qed.

(** One call, from a free lock: one stamp, [THROTTLE] or more after the
    last, and the lock is free again. *)
Lemma start_stamps (E : env) (c : call) (i : nat) (w : world) :
  lock_edit (self w) = false ->
  let r := run E (start c) w in
  exists t1,
    stamps (map (pair i) (actions r)) = [t1] /\
    last_edit (self w) + THROTTLE <= t1 /\
    last_edit (self (final r)) = t1 /\
    lock_edit (self (final r)) = false.
Proof.
  intros Hl.
  assert (forall action json,
            let r := run E (modify_page action json) w in
            exists t1,
              stamps (map (pair i) (actions r)) = [t1] /\
              last_edit (self w) + THROTTLE <= t1 /\
              last_edit (self (final r)) = t1 /\
              lock_edit (self (final r)) = false) as Hmod.
  { intros action json r.
    destruct (modify_page_stamp E action json w Hl)
      as (t0 & t1 & rest & Hact & Hrest & H0 & H1 & H2 & Hself & _).
    fold r in Hact, Hself. exists t1. rewrite Hact, Hself.
    split; [|split; [|by cbn; rewrite Hl]].
    - change (ALock :: ATime t0 :: pacing_wait action (t0 - last_edit (self w))
                ++ ATime t1 :: AStamp t1 :: rest)
        with ([ALock; ATime t0] ++ pacing_wait action (t0 - last_edit (self w))
                ++ [ATime t1; AStamp t1] ++ rest).
      rewrite !map_app, !stamps_app, (stamps_tagged_quiet i rest Hrest).
      unfold pacing_wait. by destruct (t0 - last_edit (self w) <? THROTTLE).
    - destruct (t0 - last_edit (self w) <? THROTTLE) eqn:Hlt;
        [|apply Z.ltb_ge in Hlt]; lia. }
  destruct c; unfold start, edit_page, move_page; try rewrite run_bind_ret; cbn;
    apply Hmod.
Qed.

Lemma paced_snoc (ts : list Z) (t t' : Z) :
  paced ts -> last ts = Some t -> t + THROTTLE <= t' -> paced (ts ++ [t']).
Proof.
  intros Hp Hlast Hle k a b Ha Hb.
  destruct (decide (S k < length ts)%nat) as [Hlt|Hge].
  - rewrite lookup_app_l in Ha by lia. rewrite lookup_app_l in Hb by lia. eauto.
  - assert (S k = length ts) as Hk.
    { apply lookup_lt_Some in Hb. rewrite length_app in Hb. cbn in Hb. lia. }
    rewrite lookup_app_l in Ha by lia.
    rewrite lookup_app_r, Hk, Nat.sub_diag in Hb by lia. injection Hb as <-.
    rewrite last_lookup in Hlast.
    replace (pred (length ts)) with k in Hlast by lia. congruence.
Qed.

Lemma paced_prefix (ts ts' : list Z) : paced ts' -> ts `prefix_of` ts' -> paced ts.
Proof.
  intros Hp [rest ->] k a b Ha Hb.
  apply (Hp k); by apply lookup_app_l_Some.
Qed.

(** Calls made one after the other are paced. *)
Lemma serial_paced (E : env) (calls : list call) (w : world) (order : list nat) :
  lock_edit (self w) = false ->
  lock_edit (self (serial E calls order w).1.1) = false /\
  paced (last_edit (self w) :: stamps (serial E calls order w).1.2) /\
  last (last_edit (self w) :: stamps (serial E calls order w).1.2)
  = Some (last_edit (self (serial E calls order w).1.1)).
Proof.
  intros Hl. induction order as [|i order IH] using rev_ind.
  - cbn. repeat split; try done.
  - rewrite serial_snoc.
    destruct (serial E calls order w) as [[w' h] outs]. cbn in IH.
    destruct IH as (Hl' & Hpaced & Hlast). cbn.
    destruct (calls !! i) as [c|]; [|done]. cbn.
    destruct (start_stamps E c i w' Hl') as (t1 & Hst & Hgap & Hself & Hfree).
    rewrite stamps_app, Hst, Hself.
    split; [done|]. split.
    + change (paced ((last_edit (self w) :: stamps h) ++ [t1])).
      by eapply paced_snoc.
    + change (last ((last_edit (self w) :: stamps h) ++ [t1]) = Some t1).
      apply last_snoc.
Qed.



(** * The other methods *)

Local Arguments py_eq_str : simpl never.
Local Arguments has_key : simpl never.
Local Arguments getindex : simpl never.
Local Arguments unescape_raises : simpl never.
Local Arguments titles : simpl never.

Lemma run_api_bind {A B : Type} (E : env) (p : api A) (f : A -> api B) (w : world) :
  run_api E (bind_api p f) w =
  match api_out (run_api E p w) with
  | Done a =>
      api_after (api_actions (run_api E p w)) (run_api E (f a) (api_final (run_api E p w)))
  | Failed e => mkApiResult (Failed e) (api_final (run_api E p w)) (api_actions (run_api E p w))
  | Waiting => mkApiResult Waiting (api_final (run_api E p w)) (api_actions (run_api E p w))
  end.
Proof.
  revert w. induction p as [a|e|X ef k IH]; intros w; simpl.
  - unfold api_after. by destruct (run_api E (f a) w).
  - done.
  - destruct (blocked_api ef w); [done|].
    destruct (perform_api E ef w) as [[x w'] l]. rewrite IH.
    destruct (run_api E (k x) w') as [[a|e|] w1 l1]; unfold api_after; simpl;
      by rewrite ?app_assoc.
Qed.

(** A coroutine of the first kind runs here as it does there. *)
Lemma run_api_up {A : Type} (E : env) (p : prog A) (w : world) :
  run_api E (up p) w = raise_result (run E p w).
Proof.
  revert w. induction p as [a|e|X ev k IH]; intros w; simpl; try done.
  destruct (blocked ev w); [done|].
  destruct (perform E ev w) as [[x w'] l]. rewrite IH.
  by destruct (run E (k x) w') as [[a|e|] w1 l1].
Qed.

(** What a call of [get_token] amounts to for its caller. *)
Lemma get_token_run (E : env) (type : string) (w : world) :
  let r := run E (get_token type) w in
  self (final r) = self w /\
  heap (final r) = heap w /\
  out r <> Blocked /\
  exists resp,
    actions r = [AGet (token_url (url (self w)) type) resp] /\
    forall tok, out r = Returned tok ->
      exists tr, resp = Some tr /\
        lookup_path tr ["query"; "tokens"; type +:+ "token"] = inr tok.
Proof.
  unfold get_token, session_get, subscript. exec; repeat split; try done.
  all: eexists; split; [reflexivity|]; intros tok [= <-]; try done.
  eexists; split; [reflexivity|]. cbn. by rewrite Hget, Hget0, Hget1.
Qed.

(** Start a method with its call of [get_token]. *)
Ltac token_first E type w :=
  rewrite run_api_bind, run_api_up;
  let H := fresh "Htoken" in
  pose proof (get_token_run E type w) as H; cbn zeta in H;
  let o := fresh "o" in let w' := fresh "w'" in let l := fresh "l" in
  let Hself := fresh "Hself" in let Hheap := fresh "Hheap" in
  let Hout := fresh "Hout" in let resp := fresh "resp" in
  let Hact := fresh "Hact" in let Htok := fresh "Htok" in
  destruct (run E (get_token type) w) as [o w' l];
  cbn [out final actions] in H;
  destruct H as (Hself & Hheap & Hout & resp & Hact & Htok);
  subst l; destruct o as [token|e|]; [| |done]; cbn.

(** What the next step of a stuck run depends on. *)
Ltac head_of p :=
  lazymatch p with
  | bind_api ?q _ => head_of q
  | try_except_api ?q _ _ => head_of q
  | lift_py ?x => x
  | lift_api ?x => x
  | match ?x with _ => _ end => x
  end.

Ltac step_on x :=
  match goal with
  | H : x = _ |- _ => rewrite H
  | _ =>
      lazymatch x with
      | getitem ?v ?k =>
          let H := fresh "Hget" in
          let e := fresh "e" in
          destruct (getitem v k) as [e|] eqn:H;
          [destruct (getitem_raises _ _ _ H) as [-> | ->]|]
      | _ => destruct x eqn:?
      end
  end.

Ltac api_step :=
  match goal with
  | |- context [<[?r := _]> _ !! ?r] => rewrite lookup_insert_eq
  | |- context [from_session ?x] => destruct x eqn:?
  | |- context [match ?h !! ?r with _ => _ end] => destruct (h !! r) eqn:?
  | |- context [run_api _ ?p _] => let x := head_of p in step_on x
  end.

Ltac api_exec := cbn; repeat (api_step; cbn).

Ltac unfold_api :=
  unfold login, create_account, userrights, get_html, get_markdown, get_random_pages,
    sub, sub_at, unescape_dropped, session_get, session_post, setitem.

(** ** [login] *)

(** The client after [login]. *)
Lemma login_run (E : env) (data : ref) (w : world) :
  let r := run_api E (login data) w in
  self (api_final r)
    = match api_out r with
      | Done _ => with_logged_in true (self w)
      | _ => self w
      end /\
  (forall v, api_out r = Done v -> v = PBool true) /\
  api_out r <> Waiting.
Proof.
  unfold login. token_first E "login" w.
  2: { by rewrite Hself. }
  unfold_api. api_exec; rewrite ?Hself; repeat split; try done; congruence.
Qed.

(** X9. [login] sets [logged_in] exactly when it returns, and then it returns
    [True]; when it raises, [logged_in] is as before.  Nothing else of the
    client changes, and it never waits for the edit lock. *)
Theorem login_sets_logged_in (E : env) (data : ref) (w : world) :
  let r := run_api E (login data) w in
  logged_in (self (api_final r))
    = match api_out r with Done _ => true | _ => logged_in (self w) end /\
  (forall v, api_out r = Done v -> v = PBool true) /\
  url (self (api_final r)) = url (self w) /\
  lock_edit (self (api_final r)) = lock_edit (self w) /\
  last_edit (self (api_final r)) = last_edit (self w) /\
  api_out r <> Waiting.
Proof.
  intros r. destruct (login_run E data w) as (Hself & Hv & Hw). fold r in Hself, Hv, Hw.
  rewrite Hself. by destruct (api_out r).
Qed.

Ltac use_sub :=
  cbn; repeat match goal with
              | H : getitem ?v ?k = _ |- context [getitem ?v ?k] => rewrite H; cbn
              | H : ?b = _ |- context [if ?b then _ else _] => rewrite H; cbn
              end.

(** X10. How a login ends is read off the server's answer to the POST alone:
    a missing [clientlogin] or [status] raises [KeyError], the status
    ["FAIL"] raises [LoginFailure] with the server's [message], and every
    other status ([PASS], but also [UI], [REDIRECT] or [RESTART]) counts as
    success. *)
Theorem login_outcome (E : env) (data : ref) (w : world)
    (u : string) (d : gmap string pyobj) (json : pyobj) :
  let r := run_api E (login data) w in
  APost u d (Some json) ∈ api_actions r ->
  api_out r = login_verdict json.
Proof.
  unfold login. token_first E "login" w.
  2: { intros Hin. trace_inv Hin. }
  unfold_api. api_exec; intros Hin; trace_inv Hin.
  all: simplify_eq; unfold login_verdict; by use_sub.
Qed.

Lemma login_outcome_witness :
  let E := sample_env 1 (PDict {["query" := PDict {["tokens" := PDict {["logintoken" := PStr "lt"]}]}]})
             (PDict {["clientlogin" := PDict {["status" := PStr "UI"]}]}) in
  let w := sample_world false 0 in
  let r := run_api E (login 0%nat) w in
  (exists u d json, APost u d (Some json) ∈ api_actions r) /\
  api_out r = Done (PBool true) /\
  logged_in (self (api_final r)) = true.
Proof.
  intros E w r. split; [|split; [|reflexivity]].
  - eexists _, _, _. vm_compute. in_trace.
  - subst r.
    rewrite (login_outcome E 0%nat w (url (self w))
               (login_fields (PStr "lt") {["title" := PStr "T"]})
               (PDict {["clientlogin" := PDict {["status" := PStr "UI"]}]})).
    + reflexivity.
    + vm_compute. in_trace.
Defined.

(** X11. What [login] POSTs: the caller's dict with [action], [loginreturnurl],
    [format], [rememberMe] and [logintoken] set, the token being the one the
    GET for type [login] returned, sent to [self.url].  The caller's dict is
    changed in place. *)
Theorem login_request (E : env) (data : ref) (w : world)
    (u : string) (d : gmap string pyobj) (resp : option pyobj) :
  let r := run_api E (login data) w in
  APost u d resp ∈ api_actions r ->
  u = url (self w) /\
  exists (d0 : gmap string pyobj) (token tr : pyobj),
    heap w !! data = Some d0 /\
    AGet (token_url (url (self w)) "login") (Some tr) ∈ api_actions r /\
    lookup_path tr ["query"; "tokens"; "logintoken"] = inr token /\
    d = login_fields token d0 /\
    heap (api_final r) !! data = Some d.
Proof.
  unfold login. token_first E "login" w.
  2: { intros Hin. trace_inv Hin. }
  destruct (Htok token eq_refl) as (tr & -> & Hpath).
  unfold_api. api_exec; intros Hin; trace_inv Hin.
  all: simplify_eq; rewrite ?Hself; (split; [done|]).
  all: eexists _, token, tr; rewrite <- Hheap; (split; [eassumption|]).
  all: split; [in_trace|]; split; [exact Hpath|]; split; [reflexivity|].
  all: by rewrite ?lookup_insert_eq.
Qed.

Lemma login_request_witness :
  let E := sample_env 1 (PDict {["query" := PDict {["tokens" := PDict {["logintoken" := PStr "lt"]}]}]})
             (PDict {["clientlogin" := PDict {["status" := PStr "PASS"]}]}) in
  let w := sample_world false 0 in
  let r := run_api E (login 0%nat) w in
  let d := login_fields (PStr "lt") {["title" := PStr "T"]} in
  APost "https://wiki/api.php" d
        (Some (PDict {["clientlogin" := PDict {["status" := PStr "PASS"]}]})) ∈ api_actions r /\
  heap (api_final r) !! 0%nat = Some d.
Proof.
  intros E w r d.
  assert (APost "https://wiki/api.php" d
            (Some (PDict {["clientlogin" := PDict {["status" := PStr "PASS"]}]}))
          ∈ api_actions r) as Hin.
  { vm_compute. in_trace. }
  split; [exact Hin|].
  destruct (login_request E 0%nat w _ _ _ Hin)
    as (_ & d0 & token & tr & _ & _ & _ & _ & Hfinal).
  exact Hfinal.
Defined.

(** ** [create_account] *)

Local Arguments lookup_path : simpl never.

Lemma lookup_path_cons (v : pyobj) (k : string) (rest : list string) :
  lookup_path v (k :: rest)
  = match getitem v k with
    | inl e => inl e
    | inr x => lookup_path x rest
    end.
Proof. done. Qed.

Lemma lookup_path_nil (v : pyobj) : lookup_path v [] = inr v.
Proof. done. Qed.

(** Follow the paths of a statement through what the run has looked up. *)
Ltac use_path := repeat (progress (rewrite ?lookup_path_cons, ?lookup_path_nil; use_sub)).

(** Split a statement made of equivalences and close the cases that disagree. *)
Ltac settle :=
  repeat match goal with
         | |- _ /\ _ => split
         | |- _ <-> _ => split
         | |- forall _, _ => intros
         end;
  repeat match goal with
         | H : _ /\ _ |- _ => destruct H
         | H : exists _, _ |- _ => destruct H
         | H : negb _ = true |- _ => apply negb_true_iff in H
         | H : negb _ = false |- _ => apply negb_false_iff in H
         end;
  simplify_eq; try congruence; eauto 8.

(** X12. What [create_account] POSTs: the caller's dict with [action],
    [format], [createreturnurl] (the client's own URL) and [createtoken] set,
    the token being the one the GET for type [createaccount] returned.  The
    caller's dict is changed in place, and the client is left as it was. *)
Theorem create_account_request (E : env) (json : ref) (w : world)
    (u : string) (d : gmap string pyobj) (resp : option pyobj) :
  let r := run_api E (create_account json) w in
  APost u d resp ∈ api_actions r ->
  u = url (self w) /\
  self (api_final r) = self w /\
  exists (d0 : gmap string pyobj) (token tr : pyobj),
    heap w !! json = Some d0 /\
    AGet (token_url (url (self w)) "createaccount") (Some tr) ∈ api_actions r /\
    lookup_path tr ["query"; "tokens"; "createaccounttoken"] = inr token /\
    d = create_fields (url (self w)) token d0 /\
    heap (api_final r) !! json = Some d.
Proof.
  unfold create_account. token_first E "createaccount" w.
  2: { intros Hin. trace_inv Hin. }
  destruct (Htok token eq_refl) as (tr & -> & Hpath).
  unfold_api. api_exec; intros Hin; trace_inv Hin.
  all: simplify_eq; rewrite ?Hself; (split; [done|]); (split; [done|]).
  all: eexists _, token, tr; rewrite <- Hheap; (split; [eassumption|]).
  all: split; [in_trace|]; split; [exact Hpath|]; split; [reflexivity|].
  all: by rewrite ?lookup_insert_eq.
Qed.

Lemma create_account_request_witness :
  let E := sample_env 1
             (PDict {["query" := PDict {["tokens" := PDict {["createaccounttoken" := PStr "ct"]}]}]})
             (PDict {["createaccount" := PDict {["status" := PStr "PASS"]}]}) in
  let w := sample_world false 0 in
  let r := run_api E (create_account 0%nat) w in
  let d := create_fields "https://wiki/api.php" (PStr "ct") {["title" := PStr "T"]} in
  APost "https://wiki/api.php" d
        (Some (PDict {["createaccount" := PDict {["status" := PStr "PASS"]}]})) ∈ api_actions r /\
  heap (api_final r) !! 0%nat = Some d.
Proof.
  intros E w r d.
  assert (APost "https://wiki/api.php" d
            (Some (PDict {["createaccount" := PDict {["status" := PStr "PASS"]}]}))
          ∈ api_actions r) as Hin.
  { vm_compute. in_trace. }
  split; [exact Hin|].
  destruct (create_account_request E 0%nat w _ _ _ Hin)
    as (_ & _ & d0 & token & tr & _ & _ & _ & _ & Hfinal).
  exact Hfinal.
Defined.

(** X13. [create_account] returns (and then [True]) exactly when the answer
    to its POST has a [createaccount.status] other than ["FAIL"], and it
    raises [CreateAccountError] exactly when that status is ["FAIL"] and the
    answer has a [messagecode], which the exception carries.  An answer
    without [createaccount] (an API error, say) ends in [KeyError]. *)
Theorem create_account_outcome (E : env) (json : ref) (w : world)
    (u : string) (d : gmap string pyobj) (answer : pyobj) :
  let r := run_api E (create_account json) w in
  APost u d (Some answer) ∈ api_actions r ->
  (forall v, api_out r = Done v <->
     v = PBool true /\
     exists status, lookup_path answer ["createaccount"; "status"] = inr status /\
                    py_eq_str status "FAIL" = false) /\
  (forall code, api_out r = Failed (CreateAccountError code) <->
     exists status, lookup_path answer ["createaccount"; "status"] = inr status /\
                    py_eq_str status "FAIL" = true /\
                    lookup_path answer ["createaccount"; "messagecode"] = inr code) /\
  (getitem answer "createaccount" = inl (KeyError "createaccount") ->
   api_out r = Failed (Builtin (KeyError "createaccount"))).
Proof.
  unfold create_account. token_first E "createaccount" w.
  2: { intros Hin. trace_inv Hin. }
  unfold_api. api_exec; intros Hin; trace_inv Hin.
  all: simplify_eq; use_path; settle.
Qed.

Lemma create_account_outcome_witness :
  let E := sample_env 1
             (PDict {["query" := PDict {["tokens" := PDict {["createaccounttoken" := PStr "ct"]}]}]})
             (PDict {["createaccount" := PDict {["status" := PStr "FAIL";
                                                 "messagecode" := PStr "userexists"]}]}) in
  let w := sample_world false 0 in
  let r := run_api E (create_account 0%nat) w in
  (exists u d answer, APost u d (Some answer) ∈ api_actions r) /\
  api_out r = Failed (CreateAccountError (PStr "userexists")).
Proof.
  intros E w r.
  assert (APost "https://wiki/api.php"
            (create_fields "https://wiki/api.php" (PStr "ct") {["title" := PStr "T"]})
            (Some (PDict {["createaccount" := PDict {["status" := PStr "FAIL";
                                                      "messagecode" := PStr "userexists"]}]}))
          ∈ api_actions r) as Hin.
  { vm_compute. in_trace. }
  split; [by eauto|].
  destruct (create_account_outcome E 0%nat w _ _ _ Hin) as (_ & Hfail & _).
  apply Hfail. exists (PStr "FAIL"). by vm_compute.
Defined.

(** ** [userrights] *)

(** X14. [userrights] reports unchanged rights exactly when the answer to its
    POST has no [warnings] and both [userrights.added] and
    [userrights.removed] are empty; it raises [InvalidGroupError] exactly when
    the answer has a [warnings.userrights], which the exception carries.  If
    it returns, it returns [True], and the client is as it was. *)
Theorem userrights_outcome (E : env) (json : ref) (w : world)
    (u : string) (d : gmap string pyobj) (answer : pyobj) :
  let r := run_api E (userrights json) w in
  APost u d (Some answer) ∈ api_actions r ->
  (forall msg, api_out r = Failed (UserRightsNotChangedError msg) <->
     msg = rights_unchanged /\
     has_key answer "warnings" = inr false /\
     exists added removed,
       lookup_path answer ["userrights"; "added"] = inr added /\
       lookup_path answer ["userrights"; "removed"] = inr removed /\
       truthy added = false /\ truthy removed = false) /\
  (forall warning, api_out r = Failed (InvalidGroupError warning) <->
     has_key answer "warnings" = inr true /\
     lookup_path answer ["warnings"; "userrights"] = inr warning) /\
  (forall v, api_out r = Done v -> v = PBool true) /\
  self (api_final r) = self w.
Proof.
  unfold userrights. token_first E "userrights" w.
  2: { intros Hin. trace_inv Hin. }
  unfold_api. api_exec; intros Hin; trace_inv Hin.
  all: simplify_eq; use_path; rewrite ?Hself; settle.
Qed.

Lemma userrights_outcome_witness :
  let E := sample_env 1
             (PDict {["query" := PDict {["tokens" := PDict {["userrightstoken" := PStr "ut"]}]}]})
             (PDict {["userrights" := PDict {["added" := PList []; "removed" := PList []]}]}) in
  let w := sample_world true 0 in
  let r := run_api E (userrights 0%nat) w in
  (exists u d answer, APost u d (Some answer) ∈ api_actions r) /\
  api_out r = Failed (UserRightsNotChangedError rights_unchanged).
Proof.
  intros E w r.
  assert (APost "https://wiki/api.php"
            (<["token" := PStr "ut"]>
               (<["format" := PStr "json"]>
                  (<["action" := PStr "userrights"]> {["title" := PStr "T"]})))
            (Some (PDict {["userrights" := PDict {["added" := PList []; "removed" := PList []]}]}))
          ∈ api_actions r) as Hin.
  { vm_compute. in_trace. }
  split; [by eauto|].
  destruct (userrights_outcome E 0%nat w _ _ _ Hin) as (Hsame & _).
  apply Hsame. split; [reflexivity|]. split; [reflexivity|].
  exists (PList []), (PList []). by vm_compute.
Defined.

Lemma has_key_false (v : pyobj) (k : string) :
  has_key v k = inr false -> getitem v k = inl (KeyError k).
Proof.
  unfold has_key, getitem. destruct v; try done. intros [= Hk].
  apply bool_decide_eq_false in Hk. destruct (_ !! k) eqn:Hlook; [|done].
  destruct Hk. by eexists.
Qed.

Lemma has_key_any (v : pyobj) (k k' : string) (b : bool) (e : exn) :
  has_key v k = inr b -> has_key v k' <> inl e.
Proof. unfold has_key. by destruct v. Qed.

(** X15. When the answer to the POST has neither [warnings] nor [userrights]
    (an API error, say), [userrights] raises [NoSuchUserError] only for the
    error code ["nosuchuser"]; on every other error code, and on an answer
    with no [error] either, it returns [True]. *)
Theorem userrights_error_swallowed (E : env) (json : ref) (w : world)
    (u : string) (d : gmap string pyobj) (answer : pyobj) :
  let r := run_api E (userrights json) w in
  APost u d (Some answer) ∈ api_actions r ->
  has_key answer "warnings" = inr false ->
  getitem answer "userrights" = inl (KeyError "userrights") ->
  (api_out r = Done (PBool true) <->
     has_key answer "error" = inr false \/
     exists code, lookup_path answer ["error"; "code"] = inr code /\
                  py_eq_str code "nosuchuser" = false) /\
  (forall info, api_out r = Failed (NoSuchUserError info) <->
     exists code, lookup_path answer ["error"; "code"] = inr code /\
                  py_eq_str code "nosuchuser" = true /\
                  lookup_path answer ["error"; "info"] = inr info).
Proof.
  unfold userrights. token_first E "userrights" w.
  2: { intros Hin. trace_inv Hin. }
  unfold_api. api_exec; intros Hin; trace_inv Hin.
  all: simplify_eq; intros Hwarn Hrights; simplify_eq; use_path.
  all: settle; try (by left); try (by right; eauto).
  all: try match goal with H : _ \/ _ |- _ => destruct H as [?|(? & ? & ?)] end.
  all: simplify_eq; try congruence.
  all: try match goal with
           | H : has_key ?p _ = inr _, H' : has_key ?p _ = inl _ |- _ =>
               by destruct (has_key_any _ _ _ _ _ H H')
           | H : has_key ?p ?k = inr false, H' : context [getitem ?p ?k] |- _ =>
               by rewrite (has_key_false _ _ H) in H'
           end.
Qed.

Lemma userrights_error_swallowed_witness :
  let E := sample_env 1
             (PDict {["query" := PDict {["tokens" := PDict {["userrightstoken" := PStr "ut"]}]}]})
             (PDict {["error" := PDict {["code" := PStr "permissiondenied";
                                         "info" := PStr "You do not have permission"]}]}) in
  let w := sample_world true 0 in
  let r := run_api E (userrights 0%nat) w in
  (exists u d answer, APost u d (Some answer) ∈ api_actions r) /\
  api_out r = Done (PBool true).
Proof.
  intros E w r.
  assert (APost "https://wiki/api.php"
            (<["token" := PStr "ut"]>
               (<["format" := PStr "json"]>
                  (<["action" := PStr "userrights"]> {["title" := PStr "T"]})))
            (Some (PDict {["error" := PDict {["code" := PStr "permissiondenied";
                                              "info" := PStr "You do not have permission"]}]}))
          ∈ api_actions r) as Hin.
  { vm_compute. in_trace. }
  split; [by eauto|].
  destruct (userrights_error_swallowed E 0%nat w _ _ _ Hin) as (Hdone & _).
  - reflexivity.
  - reflexivity.
  - apply Hdone. right. exists (PStr "permissiondenied"). by vm_compute.
Defined.

(** ** [get_html], [get_markdown] and [get_random_pages] *)

Local Arguments lookup_keys : simpl never.

Lemma lookup_keys_key (v : pyobj) (k : string) (rest : list key) :
  lookup_keys v (Key k :: rest)
  = match getitem v k with
    | inl e => inl (Builtin e)
    | inr x => lookup_keys x rest
    end.
Proof. done. Qed.

Lemma lookup_keys_index (v : pyobj) (n : nat) (rest : list key) :
  lookup_keys v (Index n :: rest)
  = match getindex v n with
    | inl e => inl e
    | inr x => lookup_keys x rest
    end.
Proof. done. Qed.

Lemma lookup_keys_nil (v : pyobj) : lookup_keys v [] = inr v.
Proof. done. Qed.

Lemma getindex_raises (v : pyobj) (n : nat) (e : error) :
  getindex v n = inl e -> e = IndexError \/ e = KeyErrorAt n \/ e = Builtin TypeError.
Proof.
  unfold getindex. destruct v; try (intros [= <-]; auto).
  - destruct (String.get n s); intros [= <-]; auto.
  - destruct (l !! n); intros [= <-]; auto.
Qed.

Ltac use_keys :=
  unfold markdown_path;
  repeat (progress (rewrite ?lookup_keys_key, ?lookup_keys_index, ?lookup_keys_nil;
                    cbn;
                    repeat match goal with
                           | H : getitem ?v ?k = _ |- context [getitem ?v ?k] =>
                               rewrite H; cbn
                           | H : getindex ?v ?k = _ |- context [getindex ?v ?k] =>
                               rewrite H; cbn
                           end)).





Lemma titles_of_Forall2 (l ts : list pyobj) :
  titles_of l = inr ts <-> Forall2 (fun p t => getitem p "title" = inr t) l ts.
Proof.
  revert ts. induction l as [|p l IH]; intros ts; cbn.
  - split.
    + intros [= <-]. constructor.
    + intros Hall. by inversion Hall.
  - destruct (getitem p "title") as [e|t] eqn:Hp.
    + split; [done|]. intros Hall. inversion Hall; congruence.
    + destruct (titles_of l) as [e|ts'] eqn:Hl.
      * split; [done|]. intros Hall. inversion Hall as [|? t' ? ts'' Ht Hrest]; subst.
        by apply IH in Hrest.
      * split.
        -- intros [= <-]. constructor; [done|]. by apply IH.
        -- intros Hall. inversion Hall as [|? t' ? ts'' Ht Hrest]; subst.
           apply IH in Hrest. congruence.
Qed.

(** X18. When [query.random] of the answer is a list, [get_random_pages]
    returns the [title] of each of its entries, in the order of the answer,
    and it returns exactly when every entry has one.  The GET goes to the
    random endpoint with [num] and [namespace] as given. *)
Theorem get_random_pages_titles (E : env) (num namespace : string) (w : world)
    (u : string) (data : pyobj) (l : list pyobj) :
  let r := run_api E (get_random_pages num namespace) w in
  AGet u (Some data) ∈ api_actions r ->
  lookup_path data ["query"; "random"] = inr (PList l) ->
  u = random_url (url (self w)) num namespace /\
  (forall v, api_out r = Done v <->
     exists ts, v = PList ts /\
                Forall2 (fun p t => getitem p "title" = inr t) l ts) /\
  self (api_final r) = self w /\
  heap (api_final r) = heap w.
Proof.
  unfold_api. api_exec; intros Hin; trace_inv Hin.
  all: simplify_eq; use_path; intros Hl; simplify_eq.
  all: match goal with H : titles _ = _ |- _ => unfold titles in H end.
  all: destruct (titles_of l) as [e'|ts'] eqn:Htitles; simplify_eq.
  all: repeat split; try done; try (intros (ts & -> & Hall)); try (intros [= <-]).
  all: try (apply titles_of_Forall2 in Hall; congruence).
  all: eexists; split; [reflexivity|]; by apply titles_of_Forall2.
Qed.

Lemma get_random_pages_titles_witness :
  let l := [PDict {["id" := PInt 7; "title" := PStr "B"]}; PDict {["title" := PStr "A"]}] in
  let answer := PDict {["query" := PDict {["random" := PList l]}]} in
  let E := sample_env 1 answer PNone in
  let w := sample_world false 0 in
  let r := run_api E (get_random_pages "2" "0") w in
  AGet (random_url "https://wiki/api.php" "2" "0") (Some answer) ∈ api_actions r /\
  api_out r = Done (PList [PStr "B"; PStr "A"]).
Proof.
  intros l answer E w r.
  assert (AGet (random_url "https://wiki/api.php" "2" "0") (Some answer) ∈ api_actions r)
    as Hin.
  { vm_compute. in_trace. }
  split; [exact Hin|].
  destruct (get_random_pages_titles E "2" "0" w _ _ l Hin) as (_ & Hdone & _).
  { by vm_compute. }
  apply Hdone. eexists. split; [reflexivity|].
  repeat constructor.
Defined.

(** ** What all six have in common *)

Section AllEffects.
Context {A B : Type} (P : forall X, event X -> bool).

Lemma all_effects_bind (p : api A) (f : A -> api B) :
  all_effects P p -> (forall a, all_effects P (f a)) -> all_effects P (bind_api p f).
Proof.
  intros Hp Hf. induction p as [a|e|X ef k IH]; cbn; [auto|done|].
  destruct Hp as [Hef Hk]. split; [done|]. intros x. by apply IH.
Qed.

Lemma all_effects_try_except (p : api A) (handles : error -> bool) (h : api A) :
  all_effects P p -> all_effects P h -> all_effects P (try_except_api p handles h).
Proof.
  intros Hp Hh. induction p as [a|e|X ef k IH]; cbn; [done|by destruct (handles e)|].
  destruct Hp as [Hef Hk]. split; [done|]. intros x. by apply IH.
Qed.

Lemma all_effects_up (p : prog A) : all_events P p -> all_effects P (up p).
Proof.
  induction p as [a|e|X ev k IH]; cbn; [done|done|].
  intros [Hev Hk]. split; [done|]. intros x. by apply IH.
Qed.

Lemma all_effects_lift_py (r : exn + A) : all_effects P (lift_py r).
Proof. by destruct r. Qed.

Lemma all_effects_lift_api (r : error + A) : all_effects P (lift_api r).
Proof. by destruct r. Qed.
End AllEffects.

Ltac all_effects_tac :=
  repeat first
    [ apply all_effects_bind; [|intros]
    | apply all_effects_try_except
    | apply all_effects_lift_py
    | apply all_effects_lift_api
    | apply all_effects_up
    | apply get_token_quiet
    | apply all_events_bind; [|intros]
    | apply all_events_lift
    | apply all_events_trigger; reflexivity
    | match goal with |- all_effects _ (if ?c then _ else _) => destruct c end
    | match goal with |- all_effects _ (Act _ _) => split; [done|intros] end
    | exact I ].

Lemma invoke_quiet (c : method_call) : all_effects quiet (invoke c).
Proof.
  destruct c; cbn [invoke]; unfold_api; all_effects_tac.
Qed.

(** A run of quiet effects does not wait, takes no part in the pacing and
    leaves [url], the lock and the stamp alone. *)
Lemma run_api_quiet {A : Type} (E : env) (p : api A) (w : world) :
  all_effects quiet p ->
  let r := run_api E p w in
  api_out r <> Waiting /\
  (forall a, a ∈ api_actions r -> is_lock_action a = false /\ is_pacing a = false) /\
  url (self (api_final r)) = url (self w) /\
  lock_edit (self (api_final r)) = lock_edit (self w) /\
  last_edit (self (api_final r)) = last_edit (self w) /\
  clock w <= clock (api_final r).
Proof.
  revert w. induction p as [a|e|X ef k IH]; intros w Hp; cbn.
  - split; [done|]. split; [intros a' Hin; trace_inv Hin|]. repeat split; try done; lia.
  - split; [done|]. split; [intros a' Hin; trace_inv Hin|]. repeat split; try done; lia.
  - destruct Hp as [Hef Hk].
    assert (blocked_api ef w = false) as ->.
    { destruct ef as [X ev|b]; [by destruct ev|done]. }
    destruct (perform_api E ef w) as [[x w'] l] eqn:Hperf.
    specialize (IH x w' (Hk x)). cbn in IH.
    destruct IH as (Hout & Hact & Hurl & Hlock & Hlast & Hclock).
    assert (url (self w') = url (self w) /\
            lock_edit (self w') = lock_edit (self w) /\
            last_edit (self w') = last_edit (self w) /\
            clock w <= clock w' /\
            forall a, a ∈ l -> is_lock_action a = false /\ is_pacing a = false)
      as (Hu & Hl & Hs & Hc & Hlist).
    { destruct ef as [X ev|b]; cbn in Hperf.
      - destruct ev; try discriminate Hef; cbn in Hperf;
          repeat match goal with
                 | H : context [match ?m with _ => _ end] |- _ => destruct m
                 end;
          injection Hperf as <- <- <-; cbn;
          (split; [done|]); (split; [done|]); (split; [done|]); (split; [lia|]);
          intros a Hin; trace_inv Hin; by subst.
      - injection Hperf as <- <- <-. cbn.
        split; [done|]. split; [done|]. split; [done|]. split; [lia|].
        intros a Hin; trace_inv Hin. }
    cbn. split; [done|]. split.
    { intros a' [Hin|Hin]%elem_of_app; [by apply Hlist|by apply Hact]. }
    repeat split; try congruence; lia.
Qed.

(** X19. None of [login], [create_account], [userrights], [get_html],
    [get_markdown] and [get_random_pages] takes part in the throttle: they do
    not wait for the edit lock (whoever holds it), do not take it, read no
    clock, do not sleep and do not stamp [last_edit]; [url], the lock and
    [last_edit] are as before. *)
Theorem methods_unthrottled (E : env) (c : method_call) (w : world) :
  let r := run_api E (invoke c) w in
  api_out r <> Waiting /\
  (forall a, a ∈ api_actions r -> is_lock_action a = false /\ is_pacing a = false) /\
  url (self (api_final r)) = url (self w) /\
  lock_edit (self (api_final r)) = lock_edit (self w) /\
  last_edit (self (api_final r)) = last_edit (self w).
Proof.
  intros r.
  destruct (run_api_quiet E (invoke c) w (invoke_quiet c)) as (H1 & H2 & H3 & H4 & H5 & _).
  done.
Qed.

(** ** [login], then an edit *)

(** An edit that returns on an authenticated session has asked for a [csrf]
    token and has POSTed it. *)
Lemma modify_page_authenticated (E : env) (action : string) (json : ref) (w : world)
    (v : pyobj) :
  let r := run E (modify_page action json) w in
  logged_in (self w) = true ->
  out r = Returned v ->
  v = PBool true /\
  logged_in (self (final r)) = true /\
  exists (tr tok : pyobj) (d : gmap string pyobj) (resp : option pyobj),
    AGet (token_url (url (self w)) "csrf") (Some tr) ∈ actions r /\
    lookup_path tr ["query"; "tokens"; "csrftoken"] = inr tok /\
    APost (url (self w)) d resp ∈ actions r /\
    d !! "token" = Some tok /\
    d !! "action" = Some (PStr action).
Proof.
  cbn zeta. intros Hlog. revert Hlog. unfold_http. exec; intros Hlog; try congruence.
  all: intros [= <-]; (split; [done|]); (split; [done|]).
  all: eexists _, _, _, _; split; [in_trace|].
  all: change ("csrf" +:+ "token") with "csrftoken" in *.
  all: split; [by use_path|].
  all: split; [in_trace|]; split; [by rewrite lookup_insert_eq|lookup_tac].
Qed.

(** X20. An edit made after [login] on the same client is authenticated,
    whatever [logged_in] was before: when both return, the trace has the GET
    for a [csrf] token and a POST that carries this token and the action. *)
Theorem login_then_edit (E : env) (data : ref) (action : string) (json : ref)
    (w : world) (v : pyobj) :
  let r := run_api E (bind_api (login data) (fun _ => up (modify_page action json))) w in
  api_out r = Done v ->
  v = PBool true /\
  logged_in (self (api_final r)) = true /\
  exists (tr tok : pyobj) (d : gmap string pyobj) (resp : option pyobj),
    AGet (token_url (url (self w)) "csrf") (Some tr) ∈ api_actions r /\
    lookup_path tr ["query"; "tokens"; "csrftoken"] = inr tok /\
    APost (url (self w)) d resp ∈ api_actions r /\
    d !! "token" = Some tok /\
    d !! "action" = Some (PStr action).
Proof.
  cbn zeta. rewrite run_api_bind.
  destruct (login_run E data w) as (Hself & _ & _).
  destruct (run_api E (login data) w) as [[v0|e|] w1 l1]; cbn in *; try done.
  rewrite run_api_up.
  pose proof (modify_page_authenticated E action json w1) as Hedit. cbn zeta in Hedit.
  destruct (run E (modify_page action json) w1) as [[v1|e|] w2 l2]; cbn in *; try done.
  intros [= <-].
  destruct (Hedit v1) as (-> & Hlog & tr & tok & d & resp & Hget & Hpath & Hpost & Htok & Hact);
    [by rewrite Hself|done|].
  split; [done|]. split; [done|].
  rewrite Hself in Hget, Hpost. cbn in Hget, Hpost.
  exists tr, tok, d, resp. rewrite !elem_of_app. eauto 10.
Qed.

Lemma login_then_edit_witness :
  let tokens := PDict {["query" := PDict {["tokens" := PDict {["logintoken" := PStr "lt";
                                                                "csrftoken" := PStr "ct"]}]}]} in
  let E := sample_env 1 tokens (PDict {["clientlogin" := PDict {["status" := PStr "PASS"]}]}) in
  let w := sample_world false 0 in
  let r := run_api E (bind_api (login 0%nat) (fun _ => up (modify_page "edit" 0%nat))) w in
  logged_in (self w) = false /\
  api_out r = Done (PBool true) /\
  AGet (token_url (url (self w)) "csrf") (Some tokens) ∈ api_actions r.
Proof.
  intros tokens E w r.
  assert (api_out r = Done (PBool true)) as Hout by (by vm_compute).
  split; [reflexivity|]. split; [exact Hout|].
  destruct (login_then_edit E 0%nat "edit" 0%nat w (PBool true) Hout)
    as (_ & _ & tr & tok & d & resp & Hget & _).
  vm_compute. in_trace.
Defined.
